(** * A d-ary max-heap (d_ary_heap.py): shallow embedding and properties

    The Python class [DAryHeap] keeps a list [_heap], a separately tracked
    integer [_heap_size] and the branching factor [_children].  Methods
    mutate the object in place and signal failures with exceptions, so
    every method is embedded as a state transformer that returns an
    outcome together with the state in which the call ended (an exception
    does not roll mutations back).  Keys and indices are Python integers,
    modelled by [Z]. *)

From stdpp Require Import base list sorting.
From Stdlib Require Import ZArith Lia.

Local Open Scope Z_scope.

(** ** Exceptions and the state-and-exception monad *)

(** The three exception classes of the module, and the builtin
    [IndexError] raised both by [delete_key] and by list indexing. *)
Inductive exn : Type :=
  | IllegalChildrenError
  | IllegalKeyError
  | HeapUnderflowError
  | IndexError.

(** [OutOfFuel] is not a Python outcome: it marks a run of the model whose
    budget for a recursion or a [while] loop was too small.  No method
    of a constructed heap ends with it ([out_of_fuel_unreachable]). *)
Inductive outcome (A : Type) : Type :=
  | Return (a : A)
  | Raise (e : exn)
  | OutOfFuel.
Arguments Return {A} a.
Arguments Raise {A} e.
Arguments OutOfFuel {A}.

Definition M (S A : Type) : Type := S -> outcome A * S.

Definition ret {S A} (a : A) : M S A := fun s => (Return a, s).

Definition raise {S A} (e : exn) : M S A := fun s => (Raise e, s).

Definition out_of_fuel {S A} : M S A := fun s => (OutOfFuel, s).

Definition bind {S A B} (m : M S A) (k : A -> M S B) : M S B :=
  fun s =>
    match m s with
    | (Return a, s') => k a s'
    | (Raise e, s') => (Raise e, s')
    | (OutOfFuel, s') => (OutOfFuel, s')
    end.

Notation "'let*' x ':=' m 'in' k" := (bind m (fun x => k))
  (at level 10, x name, m at level 100, k at level 200).

Definition get {S} : M S S := fun s => (Return s, s).

Definition modify {S} (f : S -> S) : M S unit := fun s => (Return tt, f s).

(** [for i in l: body(i)] *)
Fixpoint for_ {S} (l : list Z) (body : Z -> M S unit) : M S unit :=
  match l with
  | [] => ret tt
  | i :: l' => let* _ := body i in for_ l' body
  end.

(** A [for] loop that carries one local variable from iteration to
    iteration. *)
Fixpoint for_acc {S A} (l : list Z) (body : A -> Z -> M S A) (acc : A) : M S A :=
  match l with
  | [] => ret acc
  | i :: l' => let* acc' := body acc i in for_acc l' body acc'
  end.

(** ** Python ranges and list indexing *)

(** [range(start, stop)] *)
Definition range (start stop : Z) : list Z := seqZ start (stop - start).

(** [range(start, stop, -1)] *)
Definition range_down (start stop : Z) : list Z :=
  (fun i => start - i) <$> seqZ 0 (start - stop).

(** Python resolves a negative index [i] of a list of length [n] to
    [n + i]; an index outside [-n, n) raises [IndexError]. *)
Definition norm_index (n : nat) (i : Z) : option nat :=
  if decide (0 <= i < Z.of_nat n) then Some (Z.to_nat i)
  else if decide (- Z.of_nat n <= i < 0) then Some (Z.to_nat (Z.of_nat n + i))
  else None.

(** [l[i]] *)
Definition getitem (l : list Z) (i : Z) : option Z :=
  match norm_index (length l) i with
  | Some n => l !! n
  | None => None
  end.

(** [l[i] = v] *)
Definition setitem (l : list Z) (i : Z) (v : Z) : option (list Z) :=
  match norm_index (length l) i with
  | Some n => Some (<[n := v]> l)
  | None => None
  end.

(** The list helpers of the class receive the list object by reference
    and mutate it in place: they run in the monad whose state is that
    list. *)
Definition list_get (i : Z) : M (list Z) Z :=
  fun l =>
    match getitem l i with
    | Some v => (Return v, l)
    | None => (Raise IndexError, l)
    end.

Definition list_set (i v : Z) : M (list Z) unit :=
  fun l =>
    match setitem l i v with
    | Some l' => (Return tt, l')
    | None => (Raise IndexError, l)
    end.

(** [l.append(v)] *)
Definition list_append (v : Z) : M (list Z) unit :=
  fun l => (Return tt, l ++ [v]).

(** [l.pop()]: raises [IndexError] on the empty list. *)
Definition list_pop : M (list Z) Z :=
  fun l =>
    match last l with
    | Some v => (Return v, take (pred (length l)) l)
    | None => (Raise IndexError, l)
    end.

(** ** The class *)

Record DAryHeap : Type := mkDAryHeap {
  _children : Z;
  _heap : list Z;
  _heap_size : Z
}.

(** [__init__]: the only place where [_children] is written. *)
Definition __init__ (heap_size children : Z) : exn + DAryHeap :=
  if decide (children < 2) then inl IllegalChildrenError
  else inr {| _children := children; _heap := []; _heap_size := heap_size |}.

Definition set_heap (l : list Z) (self : DAryHeap) : DAryHeap :=
  {| _children := _children self; _heap := l; _heap_size := _heap_size self |}.

Definition set_heap_size (n : Z) (self : DAryHeap) : DAryHeap :=
  {| _children := _children self; _heap := _heap self; _heap_size := n |}.

(** Runs a list helper on the list object held in [self._heap]. *)
Definition on_heap {A} (m : M (list Z) A) : M DAryHeap A :=
  fun self => let (r, l) := m (_heap self) in (r, set_heap l self).

(** [_swap(array, index_a, index_b)] *)
Definition _swap (index_a index_b : Z) : M (list Z) unit :=
  let* temp := list_get index_a in
  let* b := list_get index_b in
  let* _ := list_set index_a b in
  list_set index_b temp.

(** [k_child] and [parent] read [self._children] only; it is passed as
    [d].  [//] is floor division, which is [Z.div] for the positive
    divisors the constructor admits. *)
Definition k_child (d : Z) (k_child parent_index : Z) : Z :=
  d * parent_index + k_child.

Definition parent (d : Z) (child_index : Z) : Z := (child_index - 1) / d.

(** [_find_max(heap, parent_index)]; [d] and [size] stand for
    [self._children] and [self._heap_size], which it reads and never
    writes.  The conjunction short-circuits: the list is indexed only
    when [child < size]. *)
Definition _find_max (d size : Z) (parent_index : Z) : M (list Z) Z :=
  for_acc (range 1 (d + 1))
    (fun max_value k =>
       let child := k_child d k parent_index in
       if decide (child < size) then
         let* hc := list_get child in
         let* hm := list_get max_value in
         ret (if decide (hc > hm) then child else max_value)
       else ret max_value)
    parent_index.

(** [max_heapify(heap, node)], with a budget for the recursion. *)
Fixpoint max_heapify (fuel : nat) (d size : Z) (node : Z) : M (list Z) unit :=
  match fuel with
  | O => out_of_fuel
  | S fuel' =>
      let* largest := _find_max d size node in
      if decide (largest <> node) then
        let* _ := _swap node largest in
        max_heapify fuel' d size largest
      else ret tt
  end.

(** The recursion of [max_heapify] visits list positions only, never one
    twice: this budget covers every run ([max_heapify_total]). *)
Definition heapify_fuel (l : list Z) : nat := 2 * length l + 2.

(** [self.max_heapify(self._heap, node)] *)
Definition self_max_heapify (node : Z) : M DAryHeap unit :=
  let* self := get in
  on_heap (max_heapify (heapify_fuel (_heap self)) (_children self)
                       (_heap_size self) node).

(** [build_max_heap(data)].  The list object [data] becomes [self._heap];
    the loop bound reads [self._heap_size] as it is at the call. *)
Definition build_indices (size : Z) : list Z := range_down (size / 2 - 1) (-1).

(** Modelled from the specification's words, for comparison with
    [build_indices]: "for each index from [size // d - 1] down to 0,
    inclusive". *)
Definition spec_build_indices (d size : Z) : list Z :=
  range_down (size / d - 1) (-1).

Definition build_max_heap (data : list Z) : M DAryHeap unit :=
  let* _ := modify (set_heap data) in
  let* self := get in
  for_ (build_indices (_heap_size self)) self_max_heapify.

(** The loop shared, word for word, by [increase_key] and
    [max_heap_insert]:
    [while index > 0 and key > self._heap[self.parent(index)]]. *)
Fixpoint sift_up (fuel : nat) (d : Z) (index key : Z) : M (list Z) unit :=
  match fuel with
  | O => out_of_fuel
  | S fuel' =>
      if decide (index > 0) then
        let* p := list_get (parent d index) in
        if decide (key > p) then
          let* _ := _swap index (parent d index) in
          sift_up fuel' d (parent d index) key
        else ret tt
      else ret tt
  end.

(** Each iteration replaces a positive [index] by a smaller one
    ([sift_up_total], [delete_loop_total]). *)
Definition sift_fuel (index : Z) : nat := S (Z.to_nat index).

(** [increase_key(index, key)] *)
Definition increase_key (index key : Z) : M DAryHeap unit :=
  let* cur := on_heap (list_get index) in
  if decide (key <= cur) then raise IllegalKeyError
  else
    let* _ := on_heap (list_set index key) in
    let* self := get in
    on_heap (sift_up (sift_fuel index) (_children self) index key).

(** [max_heap_insert(key)] *)
Definition max_heap_insert (key : Z) : M DAryHeap unit :=
  let* _ := modify (fun self => set_heap_size (_heap_size self + 1) self) in
  let* _ := on_heap (list_append key) in
  let* self := get in
  let index := _heap_size self - 1 in
  on_heap (sift_up (sift_fuel index) (_children self) index key).

(** The loop of [delete_key]:
    [while 1 <= key < self._heap_size and
           self._heap[self.parent(key)] < self._heap[key]];
    it returns the final value of the local [key]. *)
Fixpoint delete_loop (fuel : nat) (d size : Z) (key : Z) : M (list Z) Z :=
  match fuel with
  | O => out_of_fuel
  | S fuel' =>
      if decide (1 <= key < size) then
        let* p := list_get (parent d key) in
        let* c := list_get key in
        if decide (p < c) then
          let* _ := _swap key (parent d key) in
          delete_loop fuel' d size (parent d key)
        else ret key
      else ret key
  end.

(** [delete_key(key)]; the parameter is a position, not a key value. *)
Definition delete_key (key : Z) : M DAryHeap unit :=
  let* self := get in
  if decide (key >= _heap_size self \/ key < 0) then raise IndexError
  else
    let* last := on_heap (list_get (_heap_size self - 1)) in
    let* _ := on_heap (list_set key last) in
    let* _ := on_heap list_pop in
    let* _ := modify (fun self => set_heap_size (_heap_size self - 1) self) in
    let* self := get in
    let* key := on_heap (delete_loop (sift_fuel key) (_children self)
                                     (_heap_size self) key) in
    self_max_heapify key.

(** [extract_max()] *)
Definition extract_max : M DAryHeap Z :=
  let* self := get in
  if decide (_heap_size self < 1) then raise HeapUnderflowError
  else
    let* max_value := on_heap (list_get 0) in
    let* last := on_heap (list_get (_heap_size self - 1)) in
    let* _ := on_heap (list_set 0 last) in
    let* _ := on_heap list_pop in
    let* _ := modify (fun self => set_heap_size (_heap_size self - 1) self) in
    let* _ := self_max_heapify 0 in
    ret max_value.

(** [heap_sort(array)].  [build_max_heap(array)] stores the very list
    object [array] in [self._heap], so the swaps and sift-downs that the
    loop performs on [array] are performed on [self._heap]: the contents
    of [array] when the call ends are [_heap] of the final state.
    [heap_sort_step] is the body of the loop. *)
Definition heap_sort_step (i : Z) : M DAryHeap unit :=
  let* _ := on_heap (_swap 0 i) in
  let* _ := modify (fun self => set_heap_size (_heap_size self - 1) self) in
  self_max_heapify 0.

Definition heap_sort (array : list Z) : M DAryHeap unit :=
  let* _ := modify (set_heap_size (Z.of_nat (length array))) in
  let* self := get in
  let temp_size := _heap_size self in
  let* _ := build_max_heap array in
  let* self := get in
  let* _ := for_ (range_down (_heap_size self - 1) 0) heap_sort_step in
  modify (set_heap_size temp_size).

(** ** The invariant *)

(** The d-ary max-heap property over the first [size] positions, as the
    specification words it: every position dominates each of its children
    [d*i + k], [k] in [1..d], that lies below [size]. *)
Definition max_heap_property (d size : Z) (l : list Z) : Prop :=
  forall i k x y,
    0 <= i < size -> 1 <= k <= d -> d * i + k < size ->
    l !! Z.to_nat i = Some x -> l !! Z.to_nat (d * i + k) = Some y ->
    x >= y.

Definition heap_ok (self : DAryHeap) : Prop :=
  max_heap_property (_children self) (_heap_size self) (_heap self).

(** An executable check of the same property. *)
Definition is_max_heap (d size : Z) (l : list Z) : bool :=
  forallb (fun i =>
    forallb (fun k =>
      if decide (d * i + k < size) then
        match l !! Z.to_nat i, l !! Z.to_nat (d * i + k) with
        | Some x, Some y => bool_decide (x >= y)
        | _, _ => true
        end
      else true) (range 1 (d + 1))) (range 0 size).

(** The consistent states: the tracked size is the list length and the
    branching factor is one the constructor accepts. *)
Definition consistent (self : DAryHeap) : Prop :=
  _heap_size self = Z.of_nat (length (_heap self)) /\ 2 <= _children self.

(** ** Notions used in the proofs *)

(** The key at a position known to be non-negative. *)
Definition key (l : list Z) (i : Z) : Z := l !!! Z.to_nat i.

(** The list after exchanging two valid positions. *)
Definition swapped (l : list Z) (a b : Z) : list Z :=
  <[Z.to_nat b := key l a]> (<[Z.to_nat a := key l b]> l).

(** The invariant read from the child's side, restricted to the parents
    at or above [lo]: this is the form the loops maintain. *)
Definition ordered_above (d n lo : Z) (l : list Z) : Prop :=
  forall c, 0 < c < n -> lo <= parent d c -> key l c <= key l (parent d c).

(** The state of a sift-up at position [i]: every child is below its
    parent except perhaps [i] itself, and the children of [i] are below
    the parent of [i]. *)
Definition up_inv (d n i : Z) (l : list Z) : Prop :=
  (forall c, 0 < c < n -> c <> i -> key l c <= key l (parent d c))
  /\ (0 < i -> forall c, 0 < c < n -> parent d c = i ->
               key l c <= key l (parent d i)).

(** The list after [l[pos] = l[len(l) - 1]; l.pop()]. *)
Definition drop_at (l : list Z) (pos : Z) : list Z :=
  take (pred (length l))
       (<[Z.to_nat pos := key l (Z.of_nat (length l) - 1)]> l).

(** Every position from [s] on holds a key that is at least every key
    before it. *)
Definition sorted_from (s : Z) (l : list Z) : Prop :=
  forall a b, 0 <= a <= b -> b < Z.of_nat (length l) -> s <= b ->
              key l a <= key l b.

(** The exceptions a run can raise all satisfy [P]. *)
Definition raises_only {S A} (P : exn -> Prop) (m : M S A) : Prop :=
  forall s e s', m s = (Raise e, s') -> P e.

Definition is_index_error (e : exn) : Prop := e = IndexError.

(** From a state that satisfies [I], the run does not exhaust its budget
    and ends in a state that satisfies [I]. *)
Definition fueled {S A} (I : S -> Prop) (m : M S A) : Prop :=
  forall s, I s -> fst (m s) <> OutOfFuel /\ I (snd (m s)).

Definition any_list (l : list Z) : Prop := True.

Definition valid_children (self : DAryHeap) : Prop := 2 <= _children self.

(** A bound on the calls [max_heapify] can still make from [node] in a
    list of length [len], for [d >= 2]: from a position [node >= 0] the
    recursion moves to a larger position, from [node <= -2] to a smaller
    one, and from [-1] to [0] or to a position below [-1]. *)
Definition heapify_measure (len node : Z) : Z :=
  if decide (0 <= node) then len - node
  else if decide (node = -1) then len + 1
  else len + node + 1.

(** Reduces the field accesses and leaves the loops folded. *)
Ltac heap_simpl :=
  cbn [_heap _children _heap_size set_heap set_heap_size fst snd].

(** The position a Python index in [-len, len) stands for. *)
Definition wrap (len i : Z) : Z := if decide (0 <= i) then i else len + i.

(** The max-heap property restricted to the parents at or above [lo]:
    every position [i] with [lo <= i < size] dominates its children below
    [size].  With [lo = 0] it is [max_heap_property]. *)
Definition max_heap_from (d size lo : Z) (l : list Z) : Prop :=
  forall i k x y,
    lo <= i < size -> 1 <= k <= d -> d * i + k < size ->
    l !! Z.to_nat i = Some x -> l !! Z.to_nat (d * i + k) = Some y ->
    x >= y.

(** [n] successive calls of [extract_max], collecting what they return:
    [[heap.extract_max() for _ in range(n)]]. *)
Fixpoint extract_all (n : nat) : M DAryHeap (list Z) :=
  match n with
  | O => ret []
  | S n' =>
      let* v := extract_max in
      let* vs := extract_all n' in
      ret (v :: vs)
  end.

(** A log of calls beside the heap.  The log is ghost state: it is
    written by [logged] only and never read.  [logged i m] is the call
    [m] made at position [i]: the position is recorded when the call is
    made, however the call ends.  [build_max_heap_logged] is
    [build_max_heap] with each [self.max_heapify(self._heap, i)] of its
    loop recorded. *)
Definition lift_log {A} (m : M DAryHeap A) : M (DAryHeap * list Z) A :=
  fun st => let (r, self') := m (fst st) in (r, (self', snd st)).

Definition logged (i : Z) (m : M DAryHeap unit) : M (DAryHeap * list Z) unit :=
  fun st => let (r, self') := m (fst st) in (r, (self', snd st ++ [i])).

Definition build_max_heap_logged (data : list Z) : M (DAryHeap * list Z) unit :=
  let* _ := lift_log (modify (set_heap data)) in
  let* self := lift_log get in
  for_ (build_indices (_heap_size self)) (fun i => logged i (self_max_heapify i)).

(** * Properties *)

(** ** Small runs *)

Example run_find_max :
  _find_max 3 5 0 [1; 2; 3; 4; 5] = (Return 3, [1; 2; 3; 4; 5]).
Proof. vm_compute. reflexivity. Qed.

Example run_build_d2 :
  build_max_heap [4; 1; 7; 3; 9; 2] (mkDAryHeap 2 [] 6)
  = (Return tt, mkDAryHeap 2 [9; 4; 7; 3; 1; 2] 6).
Proof. vm_compute. reflexivity. Qed.

Example run_extract :
  extract_max (mkDAryHeap 2 [9; 4; 7; 3; 1; 2] 6)
  = (Return 9, mkDAryHeap 2 [7; 4; 2; 3; 1] 5).
Proof. vm_compute. reflexivity. Qed.

Example run_increase_key :
  increase_key 4 10 (mkDAryHeap 3 [5; 2; 3; 4; 1] 5)
  = (Return tt, mkDAryHeap 3 [10; 5; 3; 4; 2] 5).
Proof. vm_compute. reflexivity. Qed.

(** Six insertions into an empty binary heap, then the root is the
    largest key. *)
Example run_inserts :
  for_ [4; 1; 7; 3; 9; 2] max_heap_insert (mkDAryHeap 2 [] 0)
  = (Return tt, mkDAryHeap 2 [9; 7; 4; 1; 3; 2] 6).
Proof. vm_compute. reflexivity. Qed.

Example run_build_d3 :
  build_max_heap [1; 2; 3; 4; 5] (mkDAryHeap 3 [] 5)
  = (Return tt, mkDAryHeap 3 [5; 2; 3; 4; 1] 5).
Proof. vm_compute. reflexivity. Qed.

Example run_delete_last :
  delete_key 4 (mkDAryHeap 3 [5; 2; 3; 4; 1] 5)
  = (Return tt, mkDAryHeap 3 [5; 2; 3; 4] 4).
Proof. vm_compute. reflexivity. Qed.

(** The constructor rejects fewer than two children. *)
Example run_init_rejects : __init__ 0 1 = inl IllegalChildrenError.
Proof. reflexivity. Qed.

(** A heap fresh from the constructor records a size and holds no keys:
    until [build_max_heap] is given a list of that length, positions
    inside [0, size) are not positions of the list. *)
Example run_delete_before_build :
  __init__ 3 2 = inr (mkDAryHeap 2 [] 3)
  /\ delete_key 0 (mkDAryHeap 2 [] 3) = (Raise IndexError, mkDAryHeap 2 [] 3).
Proof. split; reflexivity. Qed.

(** The guard of [extract_max] is [size < 1]: the constructor does not
    check its size argument, and a negative one is treated as empty. *)
Example run_extract_negative_size :
  __init__ (-1) 2 = inr (mkDAryHeap 2 [] (-1))
  /\ extract_max (mkDAryHeap 2 [] (-1))
     = (Raise HeapUnderflowError, mkDAryHeap 2 [] (-1)).
Proof. split; reflexivity. Qed.

(** Sifting down only the positions [size // d - 1 .. 0] would leave
    internal nodes out when [d > 2]: with three children and five keys
    position 1 has the child 4 and is never visited. *)
Example run_spec_indices_miss :
  for_ (spec_build_indices 3 5) self_max_heapify (mkDAryHeap 3 [5; 1; 2; 3; 9] 5)
  = (Return tt, mkDAryHeap 3 [5; 1; 2; 3; 9] 5)
  /\ ~ max_heap_property 3 5 [5; 1; 2; 3; 9]
  /\ build_max_heap [5; 1; 2; 3; 9] (mkDAryHeap 3 [] 5)
     = (Return tt, mkDAryHeap 3 [9; 5; 2; 3; 1] 5).
Proof.
  split; [vm_compute; reflexivity|]. split; [|vm_compute; reflexivity].
  intros H.
  assert (1 >= 9) by (apply (H 1 1 1 9); [lia|lia|lia|reflexivity|reflexivity]).
  lia.
Qed.

Example run_heap_sort :
  heap_sort [4; 1; 7; 3; 9; 2] (mkDAryHeap 3 [] 0)
  = (Return tt, mkDAryHeap 3 [1; 2; 3; 4; 7; 9] 6).
Proof. vm_compute. reflexivity. Qed.

Section ListRuns.
Implicit Types (l : list Z) (i a b v : Z).

Lemma norm_index_nonneg (n : nat) i :
    0 <= i < Z.of_nat n -> norm_index n i = Some (Z.to_nat i).
  Proof. intros H. unfold norm_index. rewrite decide_True by done. done. Qed.

Lemma key_lookup l i :
    0 <= i < Z.of_nat (length l) -> l !! Z.to_nat i = Some (key l i).
  Proof. intros H. apply list_lookup_lookup_total_lt. lia. Qed.

Lemma lookup_key l i x : l !! Z.to_nat i = Some x -> key l i = x.
  Proof. intros H. unfold key. by apply list_lookup_total_correct. Qed.

Lemma getitem_nonneg l i :
    0 <= i < Z.of_nat (length l) -> getitem l i = Some (key l i).
  Proof.
    intros H. unfold getitem. rewrite norm_index_nonneg by done.
    by apply key_lookup.
  Qed.

Lemma setitem_nonneg l i v :
    0 <= i < Z.of_nat (length l) -> setitem l i v = Some (<[Z.to_nat i := v]> l).
  Proof. intros H. unfold setitem. by rewrite norm_index_nonneg. Qed.

Lemma list_get_run l i :
    0 <= i < Z.of_nat (length l) -> list_get i l = (Return (key l i), l).
  Proof. intros H. unfold list_get. by rewrite getitem_nonneg. Qed.

Lemma list_set_run l i v :
    0 <= i < Z.of_nat (length l) ->
    list_set i v l = (Return tt, <[Z.to_nat i := v]> l).
  Proof. intros H. unfold list_set. by rewrite setitem_nonneg. Qed.

Lemma key_insert l i j v :
    0 <= i < Z.of_nat (length l) -> 0 <= j ->
    key (<[Z.to_nat i := v]> l) j = if decide (j = i) then v else key l j.
  Proof.
    intros Hi Hj. unfold key. destruct (decide (j = i)) as [->|Hne].
    - apply list_lookup_total_insert_eq. lia.
    - apply list_lookup_total_insert_ne. lia.
  Qed.

Lemma length_swapped l a b : length (swapped l a b) = length l.
  Proof. unfold swapped. by rewrite !length_insert. Qed.

Lemma key_swapped l a b i :
    0 <= a < Z.of_nat (length l) -> 0 <= b < Z.of_nat (length l) -> 0 <= i ->
    key (swapped l a b) i
    = if decide (i = b) then key l a
      else if decide (i = a) then key l b else key l i.
  Proof.
    intros Ha Hb Hi. unfold swapped.
    rewrite key_insert by (rewrite ?length_insert; lia).
    destruct (decide (i = b)); [done|].
    by rewrite key_insert by lia.
  Qed.

Lemma swapped_Permutation l a b :
    0 <= a < Z.of_nat (length l) -> 0 <= b < Z.of_nat (length l) ->
    swapped l a b ≡ₚ l.
  Proof.
    intros Ha Hb. apply Permutation_inj. split; [apply length_swapped|].
    set (na := Z.to_nat a). set (nb := Z.to_nat b).
    exists (fun n => if decide (n = nb) then na
                     else if decide (n = na) then nb else n).
    split.
    - intros x y. repeat case_decide; lia.
    - intros n. unfold swapped. fold na nb.
      destruct (decide (n = nb)) as [->|Hnb].
      + rewrite list_lookup_insert_eq by (rewrite length_insert; lia).
        symmetry. apply key_lookup. lia.
      + rewrite list_lookup_insert_ne by done.
        destruct (decide (n = na)) as [->|Hna].
        * rewrite list_lookup_insert_eq by lia.
          symmetry. apply key_lookup. lia.
        * by rewrite list_lookup_insert_ne.
  Qed.

Lemma _swap_run l a b :
    0 <= a < Z.of_nat (length l) -> 0 <= b < Z.of_nat (length l) ->
    _swap a b l = (Return tt, swapped l a b).
  Proof.
    intros Ha Hb. unfold _swap, bind.
    rewrite !list_get_run by done. rewrite list_set_run by done.
    rewrite list_set_run by (rewrite length_insert; lia). done.
  Qed.

  (** Whatever the indices, a swap keeps the length of the list. *)
Lemma _swap_length l a b r l' : _swap a b l = (r, l') -> length l' = length l.
  Proof.
    unfold _swap, bind, list_get, list_set, setitem.
    destruct (getitem l a); [|by intros [= _ <-]].
    destruct (getitem l b); [|by intros [= _ <-]].
    destruct (norm_index (length l) a); [|by intros [= _ <-]].
    rewrite length_insert.
    destruct (norm_index (length l) b); intros [= _ <-];
      by rewrite ?length_insert.
  Qed.
End ListRuns.

(** Index arithmetic of the implicit tree. *)
Section Indices.
Variable d : Z.
Hypothesis Hd : 1 <= d.

Lemma parent_child (k p : Z) : 1 <= k <= d -> parent d (d * p + k) = p.
  Proof.
    intros Hk. unfold parent.
    replace (d * p + k - 1) with (p * d + (k - 1)) by lia.
    rewrite Z.div_add_l by lia. rewrite Z.div_small by lia. lia.
  Qed.

Lemma child_of_parent (c : Z) :
    exists k, 1 <= k <= d /\ c = d * parent d c + k.
  Proof.
    exists ((c - 1) mod d + 1). unfold parent.
    pose proof (Z.mod_pos_bound (c - 1) d ltac:(lia)).
    pose proof (Z.div_mod (c - 1) d ltac:(lia)). lia.
  Qed.

Lemma parent_nonneg (c : Z) : 0 < c -> 0 <= parent d c.
  Proof. intros Hc. unfold parent. apply Z.div_pos; lia. Qed.

Lemma parent_lt (c : Z) : 0 < c -> parent d c < c.
  Proof.
    intros Hc. unfold parent.
    pose proof (Z.div_le_upper_bound (c - 1) d (c - 1) ltac:(lia) ltac:(nia)).
    lia.
  Qed.

Lemma child_gt (k p : Z) : 0 <= p -> 1 <= k -> p < d * p + k.
  Proof. intros Hp Hk. nia. Qed.
End Indices.

Section Invariant.
Variables d n : Z.
Hypothesis Hd : 1 <= d.

Lemma max_heap_property_ordered (l : list Z) :
    n <= Z.of_nat (length l) ->
    max_heap_property d n l <-> ordered_above d n 0 l.
  Proof.
    intros Hn. split.
    - intros H c Hc _.
      destruct (child_of_parent d Hd c) as (k & Hk & Hck).
      pose proof (parent_nonneg d Hd c ltac:(lia)).
      pose proof (parent_lt d Hd c ltac:(lia)).
      apply Z.ge_le.
      apply (H (parent d c) k); try lia.
      + apply key_lookup. lia.
      + rewrite <- Hck. apply key_lookup. lia.
    - intros H i k x y Hi Hk Hc Hx Hy.
      apply lookup_key in Hx, Hy. subst x y.
      apply Z.le_ge.
      specialize (H (d * i + k) ltac:(nia)).
      rewrite parent_child in H by done. apply H. lia.
  Qed.

  (** The boolean check is sound. *)
Lemma is_max_heap_sound (l : list Z) :
    is_max_heap d n l = true -> max_heap_property d n l.
  Proof.
    unfold is_max_heap. intros H i k x y Hi Hk Hc Hx Hy.
    rewrite forallb_forall in H.
    specialize (H i). rewrite forallb_forall in H.
    assert (Hin : In i (range 0 n)).
    { apply list_elem_of_In, elem_of_seqZ. lia. }
    specialize (H Hin k).
    assert (Hkin : In k (range 1 (d + 1))).
    { apply list_elem_of_In, elem_of_seqZ. lia. }
    specialize (H Hkin).
    rewrite decide_True in H by done. rewrite Hx, Hy in H.
    by apply bool_decide_eq_true in H.
  Qed.

  (** In a max-heap the root dominates every position. *)
Lemma root_is_max (l : list Z) :
    ordered_above d n 0 l -> forall c, 0 <= c < n -> key l c <= key l 0.
  Proof.
    intros H c Hc. revert Hc.
    induction (Z.lt_wf 0 c) as [c _ IH]. intros Hc.
    destruct (decide (c = 0)) as [->|Hne]; [lia|].
    pose proof (parent_nonneg d Hd c ltac:(lia)).
    pose proof (parent_lt d Hd c ltac:(lia)).
    etrans; [apply H; lia|]. apply IH; lia.
  Qed.
End Invariant.

(** ** [_find_max] and [max_heapify] *)

Section SiftDown.
Variables d n : Z.
Hypothesis Hd : 1 <= d.

Lemma find_max_loop (node : Z) (l : list Z) (ks : list Z) :
    0 <= node -> n <= Z.of_nat (length l) -> Forall (fun k => 1 <= k) ks ->
    forall acc, 0 <= acc < Z.of_nat (length l) ->
    exists m,
      for_acc ks
        (fun max_value k =>
           let child := k_child d k node in
           if decide (child < n) then
             let* hc := list_get child in
             let* hm := list_get max_value in
             ret (if decide (hc > hm) then child else max_value)
           else ret max_value) acc l = (Return m, l)
      /\ 0 <= m < Z.of_nat (length l)
      /\ (m = acc \/ exists k, k ∈ ks /\ m = d * node + k /\ m < n)
      /\ key l acc <= key l m
      /\ (forall k, k ∈ ks -> d * node + k < n -> key l (d * node + k) <= key l m).
  Proof.
    intros Hnode Hn Hks. induction Hks as [|k ks Hk Hks IH]; intros acc Hacc.
    - exists acc. simpl. split; [done|]. split; [done|].
      split; [by left|]. split; [lia|].
      intros k Hk. by apply elem_of_nil in Hk.
    - simpl. unfold k_child, bind.
      destruct (decide (d * node + k < n)) as [Hlt|Hge].
      + assert (0 <= d * node + k < Z.of_nat (length l)) as Hc by nia.
        rewrite !list_get_run by done. unfold ret at 1.
        set (acc' := if decide (key l (d * node + k) > key l acc)
                     then d * node + k else acc).
        assert (0 <= acc' < Z.of_nat (length l)) as Hacc'
          by (unfold acc'; case_decide; lia).
        assert (key l acc <= key l acc' /\ key l (d * node + k) <= key l acc')
          as [Ha1 Ha2] by (unfold acc'; case_decide; lia).
        destruct (IH acc' Hacc') as (m & Hrun & Hm & Hor & Hle & Hall).
        exists m. split; [done|]. split; [done|]. split; [|split].
        * destruct Hor as [->|(k' & Hk' & -> & Hlt')].
          -- unfold acc'. case_decide; [right|by left].
             exists k. split; [left|done].
          -- right. exists k'. split; [by right|done].
        * lia.
        * intros k' Hk' Hlt'. apply elem_of_cons in Hk' as [->|Hk'].
          -- lia.
          -- by apply Hall.
      + unfold ret at 1.
        destruct (IH acc Hacc) as (m & Hrun & Hm & Hor & Hle & Hall).
        exists m. split; [done|]. split; [done|]. split; [|split; [done|]].
        * destruct Hor as [->|(k' & Hk' & -> & Hlt')]; [by left|].
          right. exists k'. split; [by right|done].
        * intros k' Hk' Hlt'. apply elem_of_cons in Hk' as [->|Hk'];
            [lia|by apply Hall].
  Qed.

  (** The result of [_find_max] at a position inside the list. *)
Lemma find_max_spec (node : Z) (l : list Z) :
    0 <= node < Z.of_nat (length l) -> n <= Z.of_nat (length l) ->
    exists m,
      _find_max d n node l = (Return m, l)
      /\ 0 <= m < Z.of_nat (length l)
      /\ (m = node \/ (parent d m = node /\ node < m < n))
      /\ key l node <= key l m
      /\ (forall c, 0 < c < n -> parent d c = node -> key l c <= key l m).
  Proof.
    intros Hnode Hn.
    destruct (find_max_loop node l (range 1 (d + 1)) ltac:(lia) Hn) with (acc := node)
      as (m & Hrun & Hm & Hor & Hle & Hall); [|done|].
    { apply Forall_forall. intros k Hk. apply elem_of_seqZ in Hk. lia. }
    exists m. split; [exact Hrun|]. split; [done|]. split; [|split; [done|]].
    - destruct Hor as [->|(k & Hk & -> & Hlt)]; [by left|right].
      apply elem_of_seqZ in Hk.
      rewrite parent_child by lia. split; [done|]. nia.
    - intros c Hc Hp.
      destruct (child_of_parent d Hd c) as (k & Hk & Hck).
      rewrite Hp in Hck. rewrite Hck. apply Hall; [|lia].
      apply elem_of_seqZ. lia.
  Qed.

  (** At a position whose children all lie at or beyond [n] the list is
      not even read. *)
Lemma find_max_leaf (node : Z) (l : list Z) :
    0 <= node -> n <= d * node + 1 -> _find_max d n node l = (Return node, l).
  Proof.
    intros Hnode Hleaf. unfold _find_max.
    assert (Forall (fun k => 1 <= k) (range 1 (d + 1))) as Hks.
    { apply Forall_forall. intros k Hk. apply elem_of_seqZ in Hk. lia. }
    induction Hks as [|k ks Hk Hks IH]; [done|].
    simpl. unfold bind, k_child. rewrite decide_False by lia. exact IH.
  Qed.

Variable lo : Z.

  (** Sift-down: if the order can fail only between [node] and its
      children, and the parent of [node] dominates those children, then
      [max_heapify] returns and leaves every parent at or above [lo] in
      order; positions before [node] and from [n] on are not touched. *)
Lemma max_heapify_spec (fuel : nat) :
    forall (node : Z) (l : list Z),
      0 <= node < n -> n <= Z.of_nat (length l) ->
      (Z.to_nat (n - node) <= fuel)%nat ->
      (forall c, 0 < c < n -> lo <= parent d c -> parent d c <> node ->
                 key l c <= key l (parent d c)) ->
      (0 < node -> lo <= parent d node ->
       forall c, 0 < c < n -> parent d c = node ->
                 key l c <= key l (parent d node)) ->
      exists l',
        max_heapify fuel d n node l = (Return tt, l')
        /\ l' ≡ₚ l
        /\ length l' = length l
        /\ (forall j, 0 <= j -> j < node \/ n <= j -> key l' j = key l j)
        /\ (forall j, 0 <= j < n -> exists j', 0 <= j' < n /\ key l' j = key l j')
        /\ ordered_above d n lo l'.
  Proof.
    induction fuel as [|fuel IH]; intros node l Hnode Hn Hfuel Hrest Hgrand;
      [lia|].
    simpl. unfold bind.
    destruct (find_max_spec node l ltac:(lia) Hn)
      as (m & -> & Hm & Hor & Hle & Hall).
    destruct Hor as [->|[Hpm Hlt]].
    - rewrite decide_False by (intros ?; done).
      exists l. do 4 (split; [done|]). split; [by eauto|].
      intros c Hc Hlo. destruct (decide (parent d c = node)) as [Hp|Hp].
      + rewrite Hp. by apply Hall.
      + by apply Hrest.
    - rewrite decide_True by lia. rewrite _swap_run by lia.
      assert (Hkey : forall i, 0 <= i ->
                key (swapped l node m) i
                = if decide (i = m) then key l node
                  else if decide (i = node) then key l m else key l i).
      { intros i Hi. apply key_swapped; lia. }
      destruct (IH m (swapped l node m))
        as (l' & Hrun & Hperm & Hlen & Hframe & Hmove & Hord).
      + lia.
      + rewrite length_swapped. lia.
      + lia.
      + intros c Hc Hlo Hp.
        pose proof (parent_nonneg d Hd c ltac:(lia)) as Hp0.
        pose proof (parent_lt d Hd c ltac:(lia)) as Hp1.
        rewrite !Hkey by lia. rewrite (decide_False (P := parent d c = m)) by done.
        destruct (decide (c = m)) as [->|Hcm].
        { rewrite Hpm. rewrite decide_True by done. done. }
        destruct (decide (c = node)) as [->|Hcn].
        { rewrite decide_False by lia. apply Hgrand; try lia. }
        destruct (decide (parent d c = node)) as [Hpn|Hpn].
        { by apply Hall. }
        by apply Hrest.
      + intros _ Hlo c Hc Hp.
        pose proof (parent_lt d Hd c ltac:(lia)) as Hp1.
        rewrite !Hkey by lia. rewrite Hpm.
        rewrite decide_False by lia. rewrite decide_False by lia.
        rewrite decide_False by lia. rewrite decide_True by done.
        rewrite <- Hp. apply Hrest; lia.
      + exists l'. split; [done|]. split; [|split; [|split; [|split; [|done]]]].
        * rewrite Hperm. apply swapped_Permutation; lia.
        * by rewrite Hlen, length_swapped.
        * intros j Hj Hout. rewrite Hframe by lia. rewrite Hkey by done.
          rewrite decide_False by lia. by rewrite decide_False by lia.
        * intros j Hj. destruct (Hmove j Hj) as (j' & Hj' & ->).
          rewrite Hkey by lia.
          destruct (decide (j' = m)); [exists node; split; [lia|done]|].
          destruct (decide (j' = node)); [exists m; split; [lia|done]|].
          exists j'. done.
  Qed.
End SiftDown.

(** ** [build_max_heap] *)

Lemma range_down_nil (start stop : Z) : start <= stop -> range_down start stop = [].
Proof. intros H. unfold range_down. by rewrite seqZ_nil by lia. Qed.

Lemma range_down_cons (start stop : Z) :
  stop < start -> range_down start stop = start :: range_down (start - 1) stop.
Proof.
  intros H. unfold range_down. rewrite seqZ_cons by lia.
  rewrite fmap_cons. f_equal; [lia|].
  replace (Z.succ 0) with (1 + 0) by lia.
  rewrite <- fmap_add_seqZ, <- list_fmap_compose.
  replace (Z.pred (start - stop)) with (start - 1 - stop) by lia.
  apply list_fmap_ext. intros _ x _. simpl. lia.
Qed.

Lemma self_max_heapify_unfold (node : Z) (self : DAryHeap) :
  self_max_heapify node self
  = let (r, l) := max_heapify (heapify_fuel (_heap self)) (_children self)
                              (_heap_size self) node (_heap self) in
    (r, set_heap l self).
Proof. reflexivity. Qed.

Lemma set_heap_id (self : DAryHeap) : set_heap (_heap self) self = self.
Proof. by destruct self. Qed.

(** The descending loop of [build_max_heap], started at [m - 1] on a list
    whose parents from [m] on are in order. *)
Lemma build_loop (m : nat) :
  forall self : DAryHeap,
    1 <= _children self ->
    Z.of_nat m <= _heap_size self <= Z.of_nat (length (_heap self)) ->
    ordered_above (_children self) (_heap_size self) (Z.of_nat m) (_heap self) ->
    exists l',
      for_ (range_down (Z.of_nat m - 1) (-1)) self_max_heapify self
      = (Return tt, set_heap l' self)
      /\ l' ≡ₚ _heap self
      /\ length l' = length (_heap self)
      /\ (forall j, _heap_size self <= j -> key l' j = key (_heap self) j)
      /\ ordered_above (_children self) (_heap_size self) 0 l'.
Proof.
  induction m as [|m IH]; intros self Hd Hsize Hord.
  - exists (_heap self). rewrite range_down_nil by lia. simpl.
    unfold ret. by rewrite set_heap_id.
  - rewrite range_down_cons by lia. simpl for_. unfold bind.
    replace (Z.of_nat (S m) - 1) with (Z.of_nat m) by lia.
    rewrite self_max_heapify_unfold.
    destruct (max_heapify_spec (_children self) (_heap_size self) Hd
                (Z.of_nat m) (heapify_fuel (_heap self)) (Z.of_nat m) (_heap self))
      as (l1 & -> & Hperm1 & Hlen1 & Hframe1 & _ & Hord1).
    + lia.
    + lia.
    + unfold heapify_fuel. lia.
    + intros c Hc Hlo Hne. apply Hord; [done|lia].
    + intros Hpos Hlo. pose proof (parent_lt _ Hd _ Hpos). lia.
    + destruct (IH (set_heap l1 self)) as (l' & Hrun & Hperm & Hlen & Hframe & Hord');
        simpl; try done; [lia|].
      simpl in Hperm, Hlen, Hframe, Hord'.
      exists l'. split; [exact Hrun|]. split; [by rewrite Hperm|].
      split; [lia|]. split; [|done].
      intros j Hj. rewrite Hframe by done. apply Hframe1; lia.
Qed.

(** With at least two children per node, the positions from [n / 2] on
    have no child below [n]. *)
Lemma ordered_above_half (d n : Z) (l : list Z) :
  2 <= d -> ordered_above d n (n / 2) l.
Proof.
  intros Hd c Hc Hlo.
  destruct (child_of_parent d ltac:(lia) c) as (k & Hk & Hck).
  pose proof (Z.div_mod n 2 ltac:(lia)).
  pose proof (Z.mod_pos_bound n 2 ltac:(lia)).
  pose proof (Z.div_pos n 2 ltac:(lia) ltac:(lia)).
  nia.
Qed.

Lemma build_max_heap_run (data : list Z) (self : DAryHeap) :
  2 <= _children self ->
  0 <= _heap_size self <= Z.of_nat (length data) ->
  exists l',
    build_max_heap data self = (Return tt, set_heap l' self)
    /\ l' ≡ₚ data
    /\ length l' = length data
    /\ (forall j, _heap_size self <= j -> key l' j = key data j)
    /\ ordered_above (_children self) (_heap_size self) 0 l'.
Proof.
  intros Hd Hsize.
  unfold build_max_heap, bind, modify, get. simpl. unfold build_indices.
  pose proof (Z.div_pos (_heap_size self) 2 ltac:(lia) ltac:(lia)) as Hhalf.
  pose proof (Z.div_le_upper_bound (_heap_size self) 2 (_heap_size self)
                ltac:(lia) ltac:(lia)) as Hhalf'.
  destruct (build_loop (Z.to_nat (_heap_size self / 2)) (set_heap data self))
    as (l' & Hrun & Hperm & Hlen & Hframe & Hord); simpl.
  - lia.
  - lia.
  - rewrite Z2Nat.id by done. by apply ordered_above_half.
  - rewrite Z2Nat.id in Hrun by done. exists l'. done.
Qed.

(** ** The upward loops *)

Section SiftUp.
Variables d n : Z.
Hypothesis Hd : 1 <= d.

Lemma up_inv_done (i : Z) (l : list Z) :
    up_inv d n i l -> (0 < i -> key l i <= key l (parent d i)) ->
    ordered_above d n 0 l.
  Proof.
    intros [H1 _] Hi c Hc _. destruct (decide (c = i)) as [->|Hne].
    - apply Hi. lia.
    - by apply H1.
  Qed.

Lemma up_inv_step (i : Z) (l : list Z) :
    0 < i < n -> n <= Z.of_nat (length l) ->
    up_inv d n i l -> key l (parent d i) < key l i ->
    up_inv d n (parent d i) (swapped l i (parent d i)).
  Proof.
    intros Hi Hn [H1 H2] Hlt.
    pose proof (parent_nonneg d Hd i ltac:(lia)) as Hq0.
    pose proof (parent_lt d Hd i ltac:(lia)) as Hq1.
    assert (Hkey : forall j, 0 <= j ->
              key (swapped l i (parent d i)) j
              = if decide (j = parent d i) then key l i
                else if decide (j = i) then key l (parent d i) else key l j).
    { intros j Hj. apply key_swapped; lia. }
    split.
    - intros c Hc Hcq.
      pose proof (parent_nonneg d Hd c ltac:(lia)) as Hp0.
      pose proof (parent_lt d Hd c ltac:(lia)) as Hp1.
      rewrite !Hkey by lia. rewrite (decide_False (P := c = parent d i)) by done.
      destruct (decide (c = i)) as [->|Hci].
      { rewrite decide_True by done. lia. }
      destruct (decide (parent d c = parent d i)) as [Hpq|Hpq].
      { specialize (H1 c Hc Hci). rewrite Hpq in H1. lia. }
      destruct (decide (parent d c = i)) as [Hpi|Hpi].
      { apply H2; [lia|done|done]. }
      by apply H1.
    - intros Hq c Hc Hp.
      pose proof (parent_nonneg d Hd _ Hq) as Hpq0.
      pose proof (parent_lt d Hd _ Hq) as Hpq1.
      pose proof (parent_lt d Hd c ltac:(lia)) as Hp1.
      rewrite !Hkey by lia.
      rewrite (decide_False (P := parent d (parent d i) = parent d i)) by lia.
      rewrite (decide_False (P := parent d (parent d i) = i)) by lia.
      rewrite (decide_False (P := c = parent d i)) by lia.
      assert (key l (parent d i) <= key l (parent d (parent d i))) as Hqq
        by (apply H1; lia).
      destruct (decide (c = i)) as [->|Hci]; [done|].
      specialize (H1 c Hc Hci). rewrite Hp in H1. lia.
  Qed.

  (** The loop of [increase_key] and [max_heap_insert], started at a
      position that holds [key]. *)
Lemma sift_up_spec (fuel : nat) :
    forall (i : Z) (l : list Z),
      0 <= i < n -> n <= Z.of_nat (length l) -> (Z.to_nat i < fuel)%nat ->
      up_inv d n i l ->
      exists l',
        sift_up fuel d i (key l i) l = (Return tt, l')
        /\ l' ≡ₚ l
        /\ length l' = length l
        /\ ordered_above d n 0 l'.
  Proof.
    induction fuel as [|fuel IH]; intros i l Hi Hn Hfuel Hinv; [lia|].
    simpl. destruct (decide (i > 0)) as [Hpos|Hzero].
    - pose proof (parent_nonneg d Hd i ltac:(lia)) as Hq0.
      pose proof (parent_lt d Hd i ltac:(lia)) as Hq1.
      unfold bind at 1. rewrite list_get_run by lia.
      destruct (decide (key l i > key l (parent d i))) as [Hgt|Hle].
      + unfold bind. rewrite _swap_run by lia.
        destruct (IH (parent d i) (swapped l i (parent d i)))
          as (l' & Hrun & Hperm & Hlen & Hord).
        * lia.
        * rewrite length_swapped. lia.
        * lia.
        * apply up_inv_step; [lia|done|done|lia].
        * rewrite key_swapped in Hrun by lia.
          rewrite decide_True in Hrun by done.
          exists l'. split; [done|]. split; [|split; [|done]].
          -- rewrite Hperm. apply swapped_Permutation; lia.
          -- by rewrite Hlen, length_swapped.
      + exists l. do 3 (split; [done|]).
        apply (up_inv_done i); [done|lia].
    - exists l. do 3 (split; [done|]).
      apply (up_inv_done i); [done|lia].
  Qed.

  (** The loop of [delete_key] in the same situation; it also returns
      the position where it stopped. *)
Lemma delete_loop_spec (fuel : nat) :
    forall (i : Z) (l : list Z),
      0 <= i < n -> n <= Z.of_nat (length l) -> (Z.to_nat i < fuel)%nat ->
      up_inv d n i l ->
      exists l' i',
        delete_loop fuel d n i l = (Return i', l')
        /\ 0 <= i' < n
        /\ l' ≡ₚ l
        /\ length l' = length l
        /\ ordered_above d n 0 l'.
  Proof.
    induction fuel as [|fuel IH]; intros i l Hi Hn Hfuel Hinv; [lia|].
    simpl. destruct (decide (1 <= i < n)) as [Hpos|Hzero].
    - pose proof (parent_nonneg d Hd i ltac:(lia)) as Hq0.
      pose proof (parent_lt d Hd i ltac:(lia)) as Hq1.
      unfold bind at 1. rewrite list_get_run by lia.
      unfold bind at 1. rewrite list_get_run by lia.
      destruct (decide (key l (parent d i) < key l i)) as [Hgt|Hle].
      + unfold bind. rewrite _swap_run by lia.
        destruct (IH (parent d i) (swapped l i (parent d i)))
          as (l' & i' & Hrun & Hi' & Hperm & Hlen & Hord).
        * lia.
        * rewrite length_swapped. lia.
        * lia.
        * apply up_inv_step; [lia|done|done|lia].
        * exists l', i'. split; [done|]. split; [lia|]. split; [|split; [|done]].
          -- rewrite Hperm. apply swapped_Permutation; lia.
          -- by rewrite Hlen, length_swapped.
      + exists l, i. do 4 (split; [done|]).
        apply (up_inv_done i); [done|lia].
    - exists l, i. do 4 (split; [done|]).
      apply (up_inv_done i); [done|lia].
  Qed.

  (** Sifting down inside a list that is already in order keeps it in
      order. *)
Lemma max_heapify_ordered (node : Z) (l : list Z) :
    0 <= node < n -> n <= Z.of_nat (length l) ->
    ordered_above d n 0 l ->
    exists l',
      max_heapify (heapify_fuel l) d n node l = (Return tt, l')
      /\ l' ≡ₚ l
      /\ length l' = length l
      /\ ordered_above d n 0 l'.
  Proof.
    intros Hnode Hn Hord.
    destruct (max_heapify_spec d n Hd 0 (heapify_fuel l) node l)
      as (l' & Hrun & Hperm & Hlen & _ & _ & Hord'); try done.
    - unfold heapify_fuel. lia.
    - intros c Hc Hlo _. by apply Hord.
    - intros Hpos _ c Hc Hp.
      pose proof (parent_nonneg d Hd _ Hpos).
      etrans; [apply Hord; [done|]|].
      + pose proof (parent_nonneg d Hd c ltac:(lia)). lia.
      + rewrite Hp. apply Hord; lia.
    - by exists l'.
  Qed.
End SiftUp.

(** ** Removing a position *)

Section DropAt.
Implicit Types (l : list Z) (pos : Z).

Lemma list_pop_run l :
    (0 < length l)%nat ->
    list_pop l = (Return (key l (Z.of_nat (length l) - 1)), take (pred (length l)) l).
  Proof.
    intros H. unfold list_pop. rewrite last_lookup.
    replace (pred (length l)) with (Z.to_nat (Z.of_nat (length l) - 1)) at 1 by lia.
    rewrite key_lookup by lia. done.
  Qed.

Lemma on_heap_run {A} (m : M (list Z) A) (self : DAryHeap) r l' :
    m (_heap self) = (r, l') -> on_heap m self = (r, set_heap l' self).
  Proof. unfold on_heap. by intros ->. Qed.

Lemma length_drop_at l pos : length (drop_at l pos) = pred (length l).
  Proof. unfold drop_at. rewrite length_take, length_insert. lia. Qed.

Lemma key_drop_at l pos j :
    0 <= pos < Z.of_nat (length l) -> 0 <= j < Z.of_nat (length l) - 1 ->
    key (drop_at l pos) j
    = if decide (j = pos) then key l (Z.of_nat (length l) - 1) else key l j.
  Proof.
    intros Hpos Hj. unfold drop_at, key at 1.
    rewrite lookup_total_take_lt by lia.
    fold (key (<[Z.to_nat pos:=key l (Z.of_nat (length l) - 1)]> l) j).
    by rewrite key_insert by lia.
  Qed.

Lemma list_snoc_last l :
    (0 < length l)%nat ->
    l = take (pred (length l)) l ++ [key l (Z.of_nat (length l) - 1)].
  Proof.
    intros H. rewrite <- (take_ge l (length l)) at 1 by done.
    replace (length l) with (S (pred (length l))) at 1 by lia.
    apply take_S_r.
    replace (pred (length l)) with (Z.to_nat (Z.of_nat (length l) - 1)) by lia.
    apply key_lookup. lia.
  Qed.

  (** The removed position held [key l pos]; the rest is kept. *)
Lemma drop_at_Permutation l pos :
    0 <= pos < Z.of_nat (length l) -> l ≡ₚ key l pos :: drop_at l pos.
  Proof.
    intros Hpos.
    set (last := Z.of_nat (length l) - 1).
    etrans; [symmetry; apply (swapped_Permutation l pos last); unfold last; lia|].
    rewrite (list_snoc_last (swapped l pos last))
      by (rewrite length_swapped; lia).
    rewrite length_swapped. fold last.
    rewrite key_swapped by (unfold last; lia).
    rewrite decide_True by done.
    rewrite <- Permutation_cons_append. apply Permutation_skip.
    unfold swapped, drop_at. fold last.
    rewrite take_insert_ge by (unfold last; lia). done.
  Qed.

  (** Cutting the last position off a heap leaves a heap. *)
Lemma ordered_above_take (d n : Z) l :
    n <= Z.of_nat (length l) ->
    ordered_above d n 0 l -> 1 <= d ->
    ordered_above d (n - 1) 0 (take (pred (length l)) l).
  Proof.
    intros Hn Hord Hd c Hc Hlo.
    pose proof (parent_lt d Hd c ltac:(lia)).
    unfold key. rewrite !lookup_total_take_lt by lia.
    apply Hord; lia.
  Qed.
End DropAt.

(** ** Runs that return whatever the order of the keys *)

Section Returns.
Variables d n : Z.
Hypothesis Hd : 1 <= d.

Lemma max_heapify_returns (node : Z) (l : list Z) :
    0 <= node -> n <= Z.of_nat (length l) ->
    exists l',
      max_heapify (heapify_fuel l) d n node l = (Return tt, l')
      /\ l' ≡ₚ l
      /\ length l' = length l
      /\ (ordered_above d n 0 l -> ordered_above d n 0 l').
  Proof.
    intros Hnode Hn. destruct (decide (node < n)) as [Hlt|Hge].
    - destruct (max_heapify_spec d n Hd n (heapify_fuel l) node l)
        as (l' & Hrun & Hperm & Hlen & _ & _ & _); try done.
      + unfold heapify_fuel. lia.
      + intros c Hc Hlo. pose proof (parent_lt d Hd c ltac:(lia)). lia.
      + intros Hpos Hlo. pose proof (parent_lt d Hd node Hpos). lia.
      + exists l'. do 3 (split; [done|]). intros Hord.
        destruct (max_heapify_ordered d n Hd node l) as (l'' & Hrun' & _ & _ & Hord');
          try done.
        rewrite Hrun in Hrun'. by injection Hrun' as ->.
    - exists l. split; [|done].
      unfold heapify_fuel. rewrite Nat.add_comm. simpl. unfold bind.
      rewrite find_max_leaf by (try done; nia).
      by rewrite decide_False by (intros ?; done).
  Qed.

Lemma sift_up_returns (fuel : nat) (k : Z) :
    forall (i : Z) (l : list Z),
      0 <= i < Z.of_nat (length l) -> (Z.to_nat i < fuel)%nat ->
      exists l',
        sift_up fuel d i k l = (Return tt, l')
        /\ l' ≡ₚ l /\ length l' = length l.
  Proof.
    induction fuel as [|fuel IH]; intros i l Hi Hfuel; [lia|].
    simpl. destruct (decide (i > 0)) as [Hpos|Hzero]; [|by exists l].
    pose proof (parent_nonneg d Hd i ltac:(lia)) as Hq0.
    pose proof (parent_lt d Hd i ltac:(lia)) as Hq1.
    unfold bind at 1. rewrite list_get_run by lia.
    destruct (decide (k > key l (parent d i))) as [Hgt|Hle]; [|by exists l].
    unfold bind. rewrite _swap_run by lia.
    destruct (IH (parent d i) (swapped l i (parent d i)))
      as (l' & Hrun & Hperm & Hlen).
    - rewrite length_swapped. lia.
    - lia.
    - exists l'. split; [done|]. split.
      + rewrite Hperm. apply swapped_Permutation; lia.
      + by rewrite Hlen, length_swapped.
  Qed.

Lemma delete_loop_returns (fuel : nat) :
    forall (i : Z) (l : list Z),
      0 <= i -> n <= Z.of_nat (length l) -> (Z.to_nat i < fuel)%nat ->
      exists l' i',
        delete_loop fuel d n i l = (Return i', l')
        /\ 0 <= i' <= i
        /\ l' ≡ₚ l /\ length l' = length l.
  Proof.
    induction fuel as [|fuel IH]; intros i l Hi Hn Hfuel; [lia|].
    simpl. destruct (decide (1 <= i < n)) as [Hpos|Hzero].
    2: { exists l, i. split; [done|]. split; [lia|done]. }
    pose proof (parent_nonneg d Hd i ltac:(lia)) as Hq0.
    pose proof (parent_lt d Hd i ltac:(lia)) as Hq1.
    unfold bind at 1. rewrite list_get_run by lia.
    unfold bind at 1. rewrite list_get_run by lia.
    destruct (decide (key l (parent d i) < key l i)) as [Hgt|Hle].
    2: { exists l, i. split; [done|]. split; [lia|done]. }
    unfold bind. rewrite _swap_run by lia.
    destruct (IH (parent d i) (swapped l i (parent d i)))
      as (l' & i' & Hrun & Hi' & Hperm & Hlen).
    - lia.
    - rewrite length_swapped. lia.
    - lia.
    - exists l', i'. split; [done|]. split; [lia|]. split.
      + rewrite Hperm. apply swapped_Permutation; lia.
      + by rewrite Hlen, length_swapped.
  Qed.
End Returns.

(** ** [extract_max] *)

Lemma extract_max_run (self : DAryHeap) :
  consistent self -> 1 <= _heap_size self ->
  exists l',
    extract_max self
    = (Return (key (_heap self) 0),
       {| _children := _children self; _heap := l';
          _heap_size := _heap_size self - 1 |})
    /\ _heap self ≡ₚ key (_heap self) 0 :: l'
    /\ Z.of_nat (length l') = _heap_size self - 1
    /\ (heap_ok self ->
        max_heap_property (_children self) (_heap_size self - 1) l').
Proof.
  destruct self as [d l n]. unfold consistent, heap_ok. simpl.
  intros [-> Hd] Hn.
  unfold extract_max, bind, get. simpl.
  rewrite decide_False by lia.
  unfold on_heap at 1. simpl. rewrite list_get_run by lia.
  unfold on_heap at 1. simpl. rewrite list_get_run by lia.
  unfold on_heap at 1. simpl. rewrite list_set_run by lia.
  unfold on_heap at 1. simpl.
  rewrite list_pop_run by (rewrite length_insert; lia).
  rewrite length_insert. fold (drop_at l 0).
  unfold modify. simpl. rewrite self_max_heapify_unfold. simpl.
  assert (Hlen0 : Z.of_nat (length (drop_at l 0)) = Z.of_nat (length l) - 1)
    by (rewrite length_drop_at; lia).
  destruct (max_heapify_returns d (Z.of_nat (length l) - 1) ltac:(lia) 0 (drop_at l 0))
    as (l' & Hrun & Hperm & Hlen & _); [lia|lia|].
  rewrite Hrun. exists l'. split; [done|]. split; [|split; [lia|]].
  { rewrite Hperm. apply drop_at_Permutation. lia. }
  intros Hok. apply max_heap_property_ordered in Hok; [|lia|lia].
  apply max_heap_property_ordered; [lia|lia|].
  destruct (decide (Z.of_nat (length l) - 1 = 0)) as [Hone|Hmore].
  { intros c Hc. lia. }
  destruct (max_heapify_spec d (Z.of_nat (length l) - 1) ltac:(lia) 0
              (heapify_fuel (drop_at l 0)) 0 (drop_at l 0))
    as (l'' & Hrun' & _ & _ & _ & _ & Hord); [lia|lia|unfold heapify_fuel; lia| | |].
  - intros c Hc _ Hp.
    pose proof (parent_nonneg d ltac:(lia) c ltac:(lia)).
    pose proof (parent_lt d ltac:(lia) c ltac:(lia)).
    rewrite !key_drop_at by lia. rewrite !decide_False by lia.
    apply Hok; lia.
  - lia.
  - rewrite Hrun in Hrun'. by injection Hrun' as ->.
Qed.

(** ** [increase_key] and [max_heap_insert] *)

Lemma increase_key_run (index k : Z) (self : DAryHeap) :
  consistent self -> 0 <= index < _heap_size self ->
  key (_heap self) index < k ->
  exists l',
    increase_key index k self = (Return tt, set_heap l' self)
    /\ l' ≡ₚ <[Z.to_nat index := k]> (_heap self)
    /\ length l' = length (_heap self)
    /\ (heap_ok self ->
        max_heap_property (_children self) (_heap_size self) l').
Proof.
  destruct self as [d l n]. unfold consistent, heap_ok. simpl.
  intros [-> Hd] Hindex Hlt.
  unfold increase_key, bind, get. heap_simpl.
  unfold on_heap at 1. heap_simpl. rewrite list_get_run by lia.
  rewrite decide_False by lia.
  unfold on_heap at 1. heap_simpl. rewrite list_set_run by lia.
  unfold on_heap. heap_simpl.
  set (l0 := <[Z.to_nat index := k]> l).
  assert (Hlen0 : length l0 = length l) by apply length_insert.
  assert (Hk : key l0 index = k).
  { unfold l0. rewrite key_insert by lia. by rewrite decide_True. }
  destruct (sift_up_returns d ltac:(lia) (sift_fuel index) k index l0)
    as (l' & Hrun & Hperm & Hlen); [lia|unfold sift_fuel; lia|].
  rewrite Hrun. exists l'. split; [done|]. split; [done|]. split; [lia|].
  intros Hok. apply max_heap_property_ordered in Hok; [|lia|lia].
  apply max_heap_property_ordered; [lia|lia|].
  destruct (sift_up_spec d (Z.of_nat (length l)) ltac:(lia) (sift_fuel index) index l0)
    as (l'' & Hrun' & _ & _ & Hord); [lia|lia|unfold sift_fuel; lia| |].
  - assert (Hkey : forall j, 0 <= j ->
              key l0 j = if decide (j = index) then k else key l j).
    { intros j Hj. unfold l0. apply key_insert; lia. }
    split.
    + intros c Hc Hne.
      pose proof (parent_nonneg d ltac:(lia) c ltac:(lia)).
      rewrite !Hkey by lia. rewrite (decide_False (P := c = index)) by done.
      specialize (Hok c Hc ltac:(lia)).
      destruct (decide (parent d c = index)) as [Hp|Hp]; [|done].
      rewrite Hp in Hok. lia.
    + intros Hpos c Hc Hp.
      pose proof (parent_nonneg d ltac:(lia) index ltac:(lia)).
      pose proof (parent_lt d ltac:(lia) index ltac:(lia)).
      pose proof (parent_lt d ltac:(lia) c ltac:(lia)).
      rewrite !Hkey by lia. rewrite !decide_False by lia.
      etrans; [apply Hok; lia|]. rewrite Hp. apply Hok; lia.
  - rewrite Hk in Hrun'. replace l' with l'' by congruence. done.
Qed.

Lemma max_heap_insert_run (k : Z) (self : DAryHeap) :
  consistent self ->
  exists l',
    max_heap_insert k self
    = (Return tt,
       {| _children := _children self; _heap := l';
          _heap_size := _heap_size self + 1 |})
    /\ l' ≡ₚ _heap self ++ [k]
    /\ Z.of_nat (length l') = _heap_size self + 1
    /\ (heap_ok self ->
        max_heap_property (_children self) (_heap_size self + 1) l').
Proof.
  destruct self as [d l n]. unfold consistent, heap_ok. simpl.
  intros [-> Hd].
  unfold max_heap_insert, bind, get, modify.
  unfold on_heap, list_append. heap_simpl.
  set (l0 := l ++ [k]). set (index := Z.of_nat (length l) + 1 - 1).
  assert (Hindex : index = Z.of_nat (length l)) by (unfold index; lia).
  assert (Hlen0 : Z.of_nat (length l0) = Z.of_nat (length l) + 1).
  { unfold l0. rewrite length_app. simpl. lia. }
  assert (Hk : key l0 index = k).
  { unfold key, l0. rewrite lookup_total_app_r by lia.
    replace (Z.to_nat index - length l)%nat with 0%nat by lia. done. }
  destruct (sift_up_returns d ltac:(lia) (sift_fuel index) k index l0)
    as (l' & Hrun & Hperm & Hlen); [lia|unfold sift_fuel; lia|].
  rewrite Hrun. exists l'. split; [done|]. split; [done|]. split; [lia|].
  intros Hok. apply max_heap_property_ordered in Hok; [|lia|lia].
  apply max_heap_property_ordered; [lia|lia|].
  destruct (sift_up_spec d (Z.of_nat (length l) + 1) ltac:(lia)
              (sift_fuel index) index l0)
    as (l'' & Hrun' & _ & _ & Hord); [lia|lia|unfold sift_fuel; lia| |].
  - assert (Hkey : forall j, 0 <= j < Z.of_nat (length l) -> key l0 j = key l j).
    { intros j Hj. unfold key, l0. apply lookup_total_app_l. lia. }
    split.
    + intros c Hc Hne.
      pose proof (parent_nonneg d ltac:(lia) c ltac:(lia)).
      pose proof (parent_lt d ltac:(lia) c ltac:(lia)).
      rewrite !Hkey by lia. apply Hok; lia.
    + intros Hpos c Hc Hp.
      pose proof (parent_lt d ltac:(lia) c ltac:(lia)). lia.
  - rewrite Hk in Hrun'. replace l' with l'' by congruence. done.
Qed.

(** ** [delete_key] *)

(** The two repair phases of [delete_key] on a list whose order can fail
    only around [pos]: the upward loop, then the sift-down from the
    position where the loop stopped. *)
Lemma delete_fixup (d n pos : Z) (l0 : list Z) (fuel : nat) :
  1 <= d -> 0 <= pos -> n <= Z.of_nat (length l0) -> (Z.to_nat pos < fuel)%nat ->
  exists l1 i' l',
    delete_loop fuel d n pos l0 = (Return i', l1)
    /\ max_heapify (heapify_fuel l1) d n i' l1 = (Return tt, l')
    /\ l' ≡ₚ l0
    /\ length l' = length l0
    /\ ((forall c, 0 < c < n -> c <> pos -> parent d c <> pos ->
                   key l0 c <= key l0 (parent d c)) ->
        (0 < pos -> forall c, 0 < c < n -> parent d c = pos ->
                    key l0 c <= key l0 (parent d pos)) ->
        ordered_above d n 0 l').
Proof.
  intros Hd Hpos Hn Hfuel.
  destruct (delete_loop_returns d n Hd fuel pos l0)
    as (l1 & i' & Hloop & Hi' & Hperm1 & Hlen1); [done..|].
  destruct (max_heapify_returns d n Hd i' l1)
    as (l' & Hdown & Hperm & Hlen & Hkeep); [lia|lia|].
  exists l1, i', l'. split; [done|]. split; [done|].
  split; [by rewrite Hperm|]. split; [lia|].
  intros H1 H2.
  destruct fuel as [|fuel]; [lia|]. simpl in Hloop.
  destruct (decide (1 <= pos < n)) as [Hin|Hout].
  - pose proof (parent_nonneg d Hd pos ltac:(lia)) as Hq0.
    pose proof (parent_lt d Hd pos ltac:(lia)) as Hq1.
    unfold bind at 1 in Hloop. rewrite list_get_run in Hloop by lia.
    unfold bind at 1 in Hloop. rewrite list_get_run in Hloop by lia.
    destruct (decide (key l0 (parent d pos) < key l0 pos)) as [Hlt|Hge].
    + apply Hkeep.
      destruct (delete_loop_spec d n Hd (S fuel) pos l0)
        as (l1' & i'' & Hloop' & _ & _ & _ & Hord); [lia|lia|lia| |].
      * split; [|done]. intros c Hc Hne.
        destruct (decide (parent d c = pos)) as [Hp|Hp]; [|by apply H1].
        rewrite Hp. specialize (H2 ltac:(lia) c Hc Hp). lia.
      * simpl in Hloop'.
        rewrite decide_True in Hloop' by done.
        unfold bind at 1 in Hloop'. rewrite list_get_run in Hloop' by lia.
        unfold bind at 1 in Hloop'. rewrite list_get_run in Hloop' by lia.
        rewrite decide_True in Hloop' by done.
        replace l1 with l1' by congruence. done.
    + injection Hloop as <- <-.
      destruct (max_heapify_spec d n Hd 0 (heapify_fuel l0) pos l0)
        as (l'' & Hdown' & _ & _ & _ & _ & Hord);
        [lia|lia|unfold heapify_fuel; lia| | |].
      * intros c Hc _ Hp. destruct (decide (c = pos)) as [->|Hne]; [lia|].
        by apply H1.
      * intros Hpos' _. by apply H2.
      * replace l' with l'' by congruence. done.
  - injection Hloop as <- <-.
    destruct (decide (pos < n)) as [Hlt|Hge].
    + destruct (max_heapify_spec d n Hd 0 (heapify_fuel l0) pos l0)
        as (l'' & Hdown' & _ & _ & _ & _ & Hord);
        [lia|lia|unfold heapify_fuel; lia| | |].
      * intros c Hc _ Hp. apply H1; [done|lia|done].
      * lia.
      * replace l' with l'' by congruence. done.
    + apply Hkeep. intros c Hc _.
      pose proof (parent_lt d Hd c ltac:(lia)).
      apply H1; lia.
Qed.

Lemma delete_key_run (pos : Z) (self : DAryHeap) :
  consistent self -> 0 <= pos < _heap_size self ->
  exists l',
    delete_key pos self
    = (Return tt,
       {| _children := _children self; _heap := l';
          _heap_size := _heap_size self - 1 |})
    /\ _heap self ≡ₚ key (_heap self) pos :: l'
    /\ Z.of_nat (length l') = _heap_size self - 1
    /\ (heap_ok self ->
        max_heap_property (_children self) (_heap_size self - 1) l').
Proof.
  destruct self as [d l n]. unfold consistent, heap_ok. simpl.
  intros [-> Hd] Hpos.
  unfold delete_key, bind, get, modify. heap_simpl.
  rewrite decide_False by lia.
  unfold on_heap at 1. heap_simpl. rewrite list_get_run by lia.
  unfold on_heap at 1. heap_simpl. rewrite list_set_run by lia.
  unfold on_heap at 1. heap_simpl.
  rewrite list_pop_run by (rewrite length_insert; lia).
  rewrite length_insert. fold (drop_at l pos). heap_simpl.
  assert (Hlen0 : Z.of_nat (length (drop_at l pos)) = Z.of_nat (length l) - 1)
    by (rewrite length_drop_at; lia).
  destruct (delete_fixup d (Z.of_nat (length l) - 1) pos (drop_at l pos)
              (sift_fuel pos))
    as (l1 & i' & l' & Hloop & Hdown & Hperm & Hlen & Hord);
    [lia|lia|lia|unfold sift_fuel; lia|].
  unfold on_heap at 1. heap_simpl. rewrite Hloop.
  rewrite self_max_heapify_unfold. heap_simpl. rewrite Hdown.
  exists l'. split; [done|]. split; [|split; [lia|]].
  { rewrite Hperm. apply drop_at_Permutation. lia. }
  intros Hok. apply max_heap_property_ordered in Hok; [|lia|lia].
  apply max_heap_property_ordered; [lia|lia|].
  apply Hord.
  - intros c Hc Hne Hp.
    pose proof (parent_nonneg d ltac:(lia) c ltac:(lia)).
    pose proof (parent_lt d ltac:(lia) c ltac:(lia)).
    rewrite !key_drop_at by lia. rewrite !decide_False by done.
    apply Hok; lia.
  - intros Hpos' c Hc Hp.
    pose proof (parent_nonneg d ltac:(lia) pos ltac:(lia)).
    pose proof (parent_lt d ltac:(lia) pos ltac:(lia)).
    pose proof (parent_lt d ltac:(lia) c ltac:(lia)).
    rewrite !key_drop_at by lia. rewrite !decide_False by lia.
    etrans; [apply Hok; lia|]. rewrite Hp. apply Hok; lia.
Qed.

(** ** [heap_sort] *)

Lemma key_cons (x : Z) (l : list Z) (a : Z) :
  0 <= a -> key (x :: l) (a + 1) = key l a.
Proof.
  intros Ha. unfold key. replace (Z.to_nat (a + 1)) with (S (Z.to_nat a)) by lia.
  done.
Qed.

Lemma sorted_from_Sorted (l : list Z) : sorted_from 1 l -> Sorted Z.le l.
Proof.
  induction l as [|x l IH]; intros H; [constructor|].
  constructor.
  - apply IH. intros a b Hab Hb _.
    rewrite <- (key_cons x l a), <- (key_cons x l b) by lia.
    apply H; simpl; lia.
  - destruct l as [|y l]; constructor.
    apply (H 0 1); simpl; lia.
Qed.

Lemma heap_sort_step_run (i : Z) (self : DAryHeap) :
  1 <= _children self ->
  _heap_size self = i + 1 -> 1 <= i < Z.of_nat (length (_heap self)) ->
  ordered_above (_children self) (i + 1) 0 (_heap self) ->
  sorted_from (i + 1) (_heap self) ->
  exists l',
    heap_sort_step i self = (Return tt, set_heap l' (set_heap_size i self))
    /\ l' ≡ₚ _heap self
    /\ length l' = length (_heap self)
    /\ ordered_above (_children self) i 0 l'
    /\ sorted_from i l'.
Proof.
  destruct self as [d l n]. heap_simpl. intros Hd -> Hi Hord Hsorted.
  unfold heap_sort_step, bind, modify. unfold on_heap at 1. heap_simpl.
  rewrite _swap_run by lia. rewrite self_max_heapify_unfold. heap_simpl.
  replace (i + 1 - 1) with i by lia.
  set (l1 := swapped l 0 i).
  assert (Hkey : forall j, 0 <= j ->
            key l1 j = if decide (j = i) then key l 0
                       else if decide (j = 0) then key l i else key l j).
  { intros j Hj. apply key_swapped; lia. }
  assert (Hlen1 : length l1 = length l) by apply length_swapped.
  pose proof (root_is_max d (i + 1) Hd l Hord) as Hroot.
  assert (Hsorted1 : sorted_from i l1).
  { intros a b Hab Hb Hib. rewrite !Hkey by lia.
    rewrite (decide_False (P := b = 0)) by lia.
    destruct (decide (b = i)) as [->|Hbi].
    - repeat case_decide; try lia; apply Hroot; lia.
    - repeat case_decide; try lia; apply Hsorted; lia. }
  destruct (max_heapify_spec d i Hd 0 (heapify_fuel l1) 0 l1)
    as (l' & -> & Hperm & Hlen & Hframe & Hmove & Hord');
    [lia|lia|unfold heapify_fuel; lia| | |].
  - intros c Hc _ Hp.
    pose proof (parent_nonneg d Hd c ltac:(lia)).
    pose proof (parent_lt d Hd c ltac:(lia)).
    rewrite !Hkey by lia. rewrite !decide_False by lia.
    apply Hord; lia.
  - lia.
  - exists l'. split; [done|]. split; [|split; [lia|split; [done|]]].
    { rewrite Hperm. apply swapped_Permutation; lia. }
    intros a b Hab Hb Hib.
    rewrite (Hframe b) by lia.
    destruct (decide (a < i)) as [Hlt|Hge].
    + destruct (Hmove a ltac:(lia)) as (a' & Ha' & ->).
      apply Hsorted1; lia.
    + rewrite (Hframe a) by lia. apply Hsorted1; lia.
Qed.

(** The loop of [heap_sort] with [m] iterations left. *)
Lemma sort_loop (m : nat) :
  forall self : DAryHeap,
    1 <= _children self ->
    _heap_size self = Z.of_nat m + 1 ->
    Z.of_nat m < Z.of_nat (length (_heap self)) ->
    ordered_above (_children self) (Z.of_nat m + 1) 0 (_heap self) ->
    sorted_from (Z.of_nat m + 1) (_heap self) ->
    exists l',
      for_ (range_down (Z.of_nat m) 0) heap_sort_step self
      = (Return tt, set_heap l' (set_heap_size 1 self))
      /\ l' ≡ₚ _heap self
      /\ length l' = length (_heap self)
      /\ sorted_from 1 l'.
Proof.
  induction m as [|m IH]; intros self Hd Hsize Hlen Hord Hsorted.
  - exists (_heap self). rewrite range_down_nil by lia. simpl.
    unfold ret. split; [|done].
    destruct self as [d l n]. simpl in *. by subst.
  - rewrite range_down_cons by lia. simpl for_. unfold bind.
    destruct (heap_sort_step_run (Z.of_nat (S m)) self)
      as (l1 & -> & Hperm1 & Hlen1 & Hord1 & Hsorted1); [done|lia|lia|done|done|].
    replace (Z.of_nat (S m) - 1) with (Z.of_nat m) by lia.
    replace (Z.of_nat (S m)) with (Z.of_nat m + 1) in * by lia.
    destruct (IH (set_heap l1 (set_heap_size (Z.of_nat m + 1) self)))
      as (l' & Hrun & Hperm & Hlen' & Hsorted'); heap_simpl; try done; [lia|].
    revert Hperm Hlen'. heap_simpl. intros Hperm Hlen'.
    exists l'. split; [exact Hrun|]. split; [by rewrite Hperm|]. split; [lia|done].
Qed.

Lemma heap_sort_run (array : list Z) (self : DAryHeap) :
  2 <= _children self ->
  exists l',
    heap_sort array self
    = (Return tt,
       {| _children := _children self; _heap := l';
          _heap_size := Z.of_nat (length array) |})
    /\ l' ≡ₚ array
    /\ Sorted Z.le l'.
Proof.
  destruct self as [d l0 n0]. heap_simpl. intros Hd.
  unfold heap_sort. unfold bind at 1. unfold modify at 1.
  unfold bind at 1. unfold get at 1. heap_simpl.
  unfold bind at 1.
  destruct (build_max_heap_run array
              (set_heap_size (Z.of_nat (length array)) (mkDAryHeap d l0 n0)))
    as (l1 & -> & Hperm1 & Hlen1 & _ & Hord1); heap_simpl; [done|lia|].
  revert Hord1. heap_simpl. intros Hord1.
  unfold bind at 1. unfold get at 1. heap_simpl. unfold bind at 1.
  destruct (decide (length array = 0%nat)) as [Hzero|Hpos].
  - rewrite range_down_nil by lia. simpl. unfold modify, set_heap_size. simpl.
    exists l1. split; [done|]. split; [done|].
    destruct l1; [constructor|]. simpl in Hlen1. lia.
  - destruct (sort_loop (length array - 1)
                (set_heap l1 (set_heap_size (Z.of_nat (length array))
                                            (mkDAryHeap d l0 n0))))
      as (l' & Hrun & Hperm & Hlen & Hsorted); heap_simpl.
    + lia.
    + lia.
    + lia.
    + by replace (Z.of_nat (length array - 1) + 1) with (Z.of_nat (length array)) by lia.
    + intros a b Hab Hb Hs. lia.
    + replace (Z.of_nat (length array - 1)) with (Z.of_nat (length array) - 1)
        in Hrun by lia.
      rewrite Hrun. unfold modify, set_heap_size. simpl.
      revert Hperm. heap_simpl. intros Hperm.
      exists l'. split; [done|]. split; [by rewrite Hperm|].
      by apply sorted_from_Sorted.
Qed.

(** ** What [build_max_heap] does to the tracked size *)

Lemma for_acc_state {A} (ks : list Z) (body : A -> Z -> M (list Z) A) :
  (forall acc k l r l', body acc k l = (r, l') -> l' = l) ->
  forall acc l r l', for_acc ks body acc l = (r, l') -> l' = l.
Proof.
  intros Hbody. induction ks as [|k ks IH]; intros acc l r l'; simpl.
  - by intros [= _ <-].
  - unfold bind. destruct (body acc k l) as [[a|e|] l1] eqn:Hb;
      apply Hbody in Hb; subst l1.
    + apply IH.
    + by intros [= _ <-].
    + by intros [= _ <-].
Qed.

(** [_find_max] only reads the list, also when it fails. *)
Lemma find_max_state (d n node : Z) (l : list Z) r l' :
  _find_max d n node l = (r, l') -> l' = l.
Proof.
  apply for_acc_state. clear. intros acc k l r l'.
  unfold bind, list_get, ret.
  destruct (decide (k_child d k node < n)); [|by intros [= _ <-]].
  destruct (getitem l (k_child d k node)); [|by intros [= _ <-]].
  destruct (getitem l acc); by intros [= _ <-].
Qed.

(** [max_heapify] keeps the length of the list, however it ends. *)
Lemma max_heapify_length (fuel : nat) (d n : Z) :
  forall node l r l',
    max_heapify fuel d n node l = (r, l') -> length l' = length l.
Proof.
  induction fuel as [|fuel IH]; intros node l r l'; simpl.
  - by intros [= _ <-].
  - unfold bind.
    destruct (_find_max d n node l) as [[m|e|] l1] eqn:Hfind;
      apply find_max_state in Hfind; subst l1; try by intros [= _ <-].
    destruct (decide (m <> node)); [|by intros [= _ <-]].
    destruct (_swap node m l) as [[u|e|] l1] eqn:Hswap;
      apply _swap_length in Hswap; try (intros [= _ <-]; lia).
    intros Hrec. apply IH in Hrec. lia.
Qed.

Lemma self_max_heapify_fields (node : Z) (self : DAryHeap) r self' :
  self_max_heapify node self = (r, self') ->
  _heap_size self' = _heap_size self
  /\ _children self' = _children self
  /\ length (_heap self') = length (_heap self).
Proof.
  rewrite self_max_heapify_unfold.
  destruct (max_heapify _ _ _ _ _) as [r1 l1] eqn:Hrun.
  apply max_heapify_length in Hrun. by intros [= _ <-].
Qed.

Lemma for_invariant {S} (P : S -> Prop) (body : Z -> M S unit) (l : list Z) :
  (forall i s r s', body i s = (r, s') -> P s -> P s') ->
  forall s r s', for_ l body s = (r, s') -> P s -> P s'.
Proof.
  intros Hbody. induction l as [|i l IH]; intros s r s'; simpl.
  - by intros [= _ <-].
  - unfold bind. destruct (body i s) as [[u|e|] s1] eqn:Hb; intros Hrun Hs;
      pose proof (Hbody _ _ _ _ Hb Hs) as Hs1.
    + by apply (IH _ _ _ Hrun).
    + by injection Hrun as _ <-.
    + by injection Hrun as _ <-.
Qed.

Lemma build_max_heap_fields (data : list Z) (self : DAryHeap) r self' :
  build_max_heap data self = (r, self') ->
  _heap_size self' = _heap_size self
  /\ _children self' = _children self
  /\ length (_heap self') = length data.
Proof.
  unfold build_max_heap, bind, modify, get. heap_simpl. intros Hrun.
  apply (for_invariant
           (fun s => _heap_size s = _heap_size self
                     /\ _children s = _children self
                     /\ length (_heap s) = length data)) in Hrun; [done| |done].
  intros i s r1 s1 Hbody (H1 & H2 & H3).
  apply self_max_heapify_fields in Hbody as (-> & -> & ->). done.
Qed.

(** ** Which exceptions a run can raise *)

Section RaisesOnly.
Context {S : Type} (P : exn -> Prop).

Lemma raises_only_ret {A} (a : A) : raises_only (S := S) P (ret a).
  Proof. by intros s e s' [=]. Qed.

Lemma raises_only_get : raises_only (S := S) P get.
  Proof. by intros s e s' [=]. Qed.

Lemma raises_only_modify (f : S -> S) : raises_only P (modify f).
  Proof. by intros s e s' [=]. Qed.

Lemma raises_only_out_of_fuel {A} : raises_only (S := S) (A := A) P out_of_fuel.
  Proof. by intros s e s' [=]. Qed.

Lemma raises_only_raise {A} (e : exn) : P e -> raises_only (S := S) (A := A) P (raise e).
  Proof. by intros He s e' s' [= <- _]. Qed.

Lemma raises_only_bind {A B} (m : M S A) (k : A -> M S B) :
    raises_only P m -> (forall a, raises_only P (k a)) -> raises_only P (bind m k).
  Proof.
    intros Hm Hk s e s'. unfold bind.
    destruct (m s) as [[a|e1|] s1] eqn:Hms.
    - apply Hk.
    - intros [= <- _]. by apply (Hm _ _ _ Hms).
    - by intros [=].
  Qed.

Lemma raises_only_for_acc {A} (ks : list Z) (body : A -> Z -> M S A) :
    (forall acc k, raises_only P (body acc k)) ->
    forall acc, raises_only P (for_acc ks body acc).
  Proof.
    intros Hbody. induction ks as [|k ks IH]; intros acc; simpl.
    - apply raises_only_ret.
    - apply raises_only_bind; [apply Hbody|apply IH].
  Qed.
End RaisesOnly.

Section IndexErrors.
Lemma raises_only_list_get (i : Z) : raises_only is_index_error (list_get i).
  Proof.
    intros l e l'. unfold list_get. destruct (getitem l i); [by intros [=]|].
    by intros [= <- _].
  Qed.

Lemma raises_only_list_set (i v : Z) : raises_only is_index_error (list_set i v).
  Proof.
    intros l e l'. unfold list_set. destruct (setitem l i v); [by intros [=]|].
    by intros [= <- _].
  Qed.

Lemma raises_only_list_pop : raises_only is_index_error list_pop.
  Proof.
    intros l e l'. unfold list_pop. destruct (last l); [by intros [=]|].
    by intros [= <- _].
  Qed.

Lemma raises_only_on_heap {A} (m : M (list Z) A) :
    raises_only is_index_error m -> raises_only is_index_error (on_heap m).
  Proof.
    intros Hm self e self'. unfold on_heap.
    destruct (m (_heap self)) as [r l] eqn:Hrun. intros [= -> _].
    by apply (Hm _ _ _ Hrun).
  Qed.

Lemma raises_only_swap (a b : Z) : raises_only is_index_error (_swap a b).
  Proof.
    unfold _swap.
    repeat (apply raises_only_bind; [|intros ?]);
      auto using raises_only_list_get, raises_only_list_set.
  Qed.

Lemma raises_only_find_max (d n node : Z) : raises_only is_index_error (_find_max d n node).
  Proof.
    unfold _find_max. apply raises_only_for_acc. intros acc k.
    case_decide; [|apply raises_only_ret].
    repeat (apply raises_only_bind; [|intros ?]);
      auto using raises_only_list_get, raises_only_ret.
  Qed.

Lemma raises_only_max_heapify (fuel : nat) (d n : Z) :
    forall node, raises_only is_index_error (max_heapify fuel d n node).
  Proof.
    induction fuel as [|fuel IH]; intros node; simpl.
    - apply raises_only_out_of_fuel.
    - apply raises_only_bind; [apply raises_only_find_max|]. intros m.
      case_decide; [|apply raises_only_ret].
      apply raises_only_bind; [apply raises_only_swap|]. intros _. apply IH.
  Qed.

Lemma raises_only_self_max_heapify (node : Z) :
    raises_only is_index_error (self_max_heapify node).
  Proof.
    unfold self_max_heapify. apply raises_only_bind; [apply raises_only_get|].
    intros self. apply raises_only_on_heap, raises_only_max_heapify.
  Qed.

  (** Past its guard, [extract_max] can fail only on a list index. *)
Lemma extract_max_no_underflow (self : DAryHeap) :
    1 <= _heap_size self -> fst (extract_max self) <> Raise HeapUnderflowError.
  Proof.
    intros Hsize. destruct (extract_max self) as [r self'] eqn:Hrun.
    simpl. intros ->. revert Hrun.
    unfold extract_max. unfold bind at 1. unfold get at 1.
    rewrite decide_False by lia. intros Hrun.
    enough (Hbad : is_index_error HeapUnderflowError)
      by (unfold is_index_error in Hbad; discriminate).
    revert Hrun. generalize self at 2. intros s Hrun. revert Hrun.
    apply (raises_only_bind is_index_error); [apply raises_only_on_heap, raises_only_list_get|].
    intros max_value.
    apply raises_only_bind; [apply raises_only_on_heap, raises_only_list_get|].
    intros last.
    apply raises_only_bind; [apply raises_only_on_heap, raises_only_list_set|].
    intros _.
    apply raises_only_bind; [apply raises_only_on_heap, raises_only_list_pop|].
    intros _.
    apply raises_only_bind; [apply raises_only_modify|]. intros _.
    apply raises_only_bind; [apply raises_only_self_max_heapify|]. intros _.
    apply raises_only_ret.
  Qed.
End IndexErrors.

(** ** The budgets are never exhausted *)

Section Fueled.
Context {S : Type} (I : S -> Prop).

Lemma fueled_ret {A} (a : A) : fueled I (ret a).
Proof. by intros s Hs. Qed.

Lemma fueled_raise {A} (e : exn) : fueled (A := A) I (raise e).
Proof. by intros s Hs. Qed.

Lemma fueled_modify (f : S -> S) : (forall s, I s -> I (f s)) -> fueled I (modify f).
Proof. intros Hf s Hs. split; [done|by apply Hf]. Qed.

Lemma fueled_bind {A B} (m : M S A) (k : A -> M S B) :
  fueled I m -> (forall a, fueled I (k a)) -> fueled I (bind m k).
Proof.
  intros Hm Hk s Hs. unfold bind. specialize (Hm s Hs).
  destruct (m s) as [[a|e|] s1]; simpl in Hm; destruct Hm as [Hne Hs1].
  - by apply Hk.
  - done.
  - done.
Qed.

Lemma fueled_bind_get {A} (k : S -> M S A) :
  (forall s, I s -> fst (k s s) <> OutOfFuel /\ I (snd (k s s))) ->
  fueled I (bind get k).
Proof. intros Hk s Hs. by apply Hk. Qed.

Lemma fueled_for (l : list Z) (body : Z -> M S unit) :
  (forall i, fueled I (body i)) -> fueled I (for_ l body).
Proof.
  intros Hbody. induction l as [|i l IH]; simpl.
  - apply fueled_ret.
  - apply fueled_bind; [apply Hbody|]. intros _. apply IH.
Qed.

Lemma fueled_for_acc {A} (l : list Z) (body : A -> Z -> M S A) :
  (forall acc i, fueled I (body acc i)) -> forall acc, fueled I (for_acc l body acc).
Proof.
  intros Hbody. induction l as [|i l IH]; intros acc; simpl.
  - apply fueled_ret.
  - apply fueled_bind; [apply Hbody|apply IH].
Qed.
End Fueled.

Lemma fueled_list_get (i : Z) : fueled any_list (list_get i).
Proof. intros l _. unfold list_get. by destruct (getitem l i). Qed.

Lemma fueled_list_set (i v : Z) : fueled any_list (list_set i v).
Proof. intros l _. unfold list_set. by destruct (setitem l i v). Qed.

Lemma fueled_list_pop : fueled any_list list_pop.
Proof. intros l _. unfold list_pop. by destruct (last l). Qed.

Lemma fueled_list_append (v : Z) : fueled any_list (list_append v).
Proof. by intros l _. Qed.

Lemma fueled_swap (a b : Z) : fueled any_list (_swap a b).
Proof.
  unfold _swap.
  repeat (apply fueled_bind; [|intros ?]);
    auto using fueled_list_get, fueled_list_set.
Qed.

Lemma fueled_find_max (d n node : Z) : fueled any_list (_find_max d n node).
Proof.
  unfold _find_max. apply fueled_for_acc. intros acc k.
  case_decide; [|apply fueled_ret].
  repeat (apply fueled_bind; [|intros ?]);
    auto using fueled_list_get, fueled_ret.
Qed.

Lemma fueled_on_heap {A} (m : M (list Z) A) :
  fueled any_list m -> fueled valid_children (on_heap m).
Proof.
  intros Hm self Hself. unfold on_heap.
  destruct (Hm (_heap self) ltac:(done)) as [Hne _].
  by destruct (m (_heap self)).
Qed.

(** [_find_max] returns the position it was given or one of its
    children. *)
Lemma find_max_result (d n node : Z) (l : list Z) m l' :
  _find_max d n node l = (Return m, l') ->
  m = node \/ exists k, 1 <= k <= d /\ m = d * node + k.
Proof.
  unfold _find_max.
  assert (Hks : Forall (fun k => 1 <= k <= d) (range 1 (d + 1))).
  { apply Forall_forall. intros k Hk. apply elem_of_seqZ in Hk. lia. }
  revert Hks. generalize (range 1 (d + 1)). intros ks Hks.
  enough (forall acc,
    for_acc ks
      (fun max_value k =>
         let child := k_child d k node in
         if decide (child < n) then
           let* hc := list_get child in
           let* hm := list_get max_value in
           ret (if decide (hc > hm) then child else max_value)
         else ret max_value) acc l = (Return m, l') ->
    m = acc \/ exists k, 1 <= k <= d /\ m = d * node + k) as H by apply H.
  induction Hks as [|k ks Hk Hks IH]; intros acc; simpl.
  - intros [= <- _]. by left.
  - unfold bind at 1. unfold k_child.
    destruct (decide (d * node + k < n)) as [Hlt|Hge].
    + unfold bind, list_get, ret.
      destruct (getitem l (d * node + k)) as [hc|]; [|by intros [=]].
      destruct (getitem l acc) as [hm|]; [|by intros [=]].
      intros Hrun. apply IH in Hrun as [->|Hrun]; [|by right].
      case_decide; [right; by exists k|by left].
    + unfold ret at 1. apply IH.
Qed.

Lemma getitem_Some_range (l : list Z) (i v : Z) :
  getitem l i = Some v -> - Z.of_nat (length l) <= i < Z.of_nat (length l).
Proof.
  unfold getitem, norm_index. repeat case_decide; try done; lia.
Qed.

(** A swap that returns was given two positions of the list. *)
Lemma swap_return_range (a b : Z) (l : list Z) u l' :
  _swap a b l = (Return u, l') ->
  - Z.of_nat (length l) <= a < Z.of_nat (length l)
  /\ - Z.of_nat (length l) <= b < Z.of_nat (length l).
Proof.
  unfold _swap, bind, list_get.
  destruct (getitem l a) as [va|] eqn:Ha; [|by intros [=]].
  destruct (getitem l b) as [vb|] eqn:Hb; [|by intros [=]].
  intros _. split; eapply getitem_Some_range; eauto.
Qed.

Lemma heapify_measure_decreases (d len node m k : Z) :
  2 <= d -> 1 <= k <= d -> m = d * node + k -> m <> node ->
  - len <= node < len -> - len <= m < len ->
  0 <= heapify_measure len m < heapify_measure len node.
Proof.
  intros Hd Hk -> Hne Hnode Hm. unfold heapify_measure.
  repeat case_decide; nia.
Qed.

Lemma max_heapify_fueled_inside (d n : Z) (fuel : nat) :
  2 <= d ->
  forall node l,
    - Z.of_nat (length l) <= node < Z.of_nat (length l) ->
    heapify_measure (Z.of_nat (length l)) node < Z.of_nat fuel ->
    fst (max_heapify fuel d n node l) <> OutOfFuel.
Proof.
  intros Hd. induction fuel as [|fuel IH]; intros node l Hnode Hfuel.
  - unfold heapify_measure in Hfuel. repeat case_decide; lia.
  - simpl. unfold bind at 1.
    pose proof (fueled_find_max d n node l ltac:(done)) as [Hfm _].
    destruct (_find_max d n node l) as [[m|e|] l1] eqn:Hfind; [|done..].
    pose proof (find_max_state _ _ _ _ _ _ Hfind) as ->.
    apply find_max_result in Hfind.
    destruct (decide (m <> node)) as [Hne|Heq]; [|done].
    unfold bind.
    pose proof (fueled_swap node m l ltac:(done)) as [Hsw _].
    destruct (_swap node m l) as [[u|e|] l1] eqn:Hswap; [|done..].
    pose proof (_swap_length _ _ _ _ _ Hswap) as Hlen.
    apply swap_return_range in Hswap as [_ Hm].
    destruct Hfind as [->|(k & Hk & Hmk)]; [done|].
    pose proof (heapify_measure_decreases d (Z.of_nat (length l)) node m k
                  Hd Hk Hmk Hne Hnode Hm).
    apply IH; rewrite Hlen; lia.
Qed.

(** [max_heapify] never exhausts [heapify_fuel], at any position, in or
    out of the list, and whatever the tracked size. *)
Lemma max_heapify_total (d n node : Z) (l : list Z) :
  2 <= d -> fst (max_heapify (heapify_fuel l) d n node l) <> OutOfFuel.
Proof.
  intros Hd.
  destruct (decide (- Z.of_nat (length l) <= node < Z.of_nat (length l)))
    as [Hin|Hout].
  - apply max_heapify_fueled_inside; [done|done|].
    unfold heapify_measure, heapify_fuel. repeat case_decide; lia.
  - unfold heapify_fuel. rewrite Nat.add_comm. simpl. unfold bind at 1.
    pose proof (fueled_find_max d n node l ltac:(done)) as [Hfm _].
    destruct (_find_max d n node l) as [[m|e|] l1] eqn:Hfind; [|done..].
    pose proof (find_max_state _ _ _ _ _ _ Hfind) as ->.
    destruct (decide (m <> node)) as [Hne|Heq]; [|done].
    unfold bind.
    pose proof (fueled_swap node m l ltac:(done)) as [Hsw _].
    destruct (_swap node m l) as [[u|e|] l1] eqn:Hswap; [|done..].
    apply swap_return_range in Hswap as [Hnode _]. lia.
Qed.

Lemma sift_up_total (d : Z) (k : Z) (fuel : nat) :
  1 <= d ->
  forall index l, (Z.to_nat index < fuel)%nat ->
                  fst (sift_up fuel d index k l) <> OutOfFuel.
Proof.
  intros Hd. induction fuel as [|fuel IH]; intros index l Hfuel; [lia|].
  simpl. destruct (decide (index > 0)) as [Hpos|]; [|done].
  pose proof (parent_lt d Hd index ltac:(lia)).
  unfold bind at 1.
  pose proof (fueled_list_get (parent d index) l ltac:(done)) as [Hg _].
  destruct (list_get (parent d index) l) as [[p|e|] l1]; [|done..].
  destruct (decide (k > p)); [|done]. unfold bind.
  pose proof (fueled_swap index (parent d index) l1 ltac:(done)) as [Hsw _].
  destruct (_swap index (parent d index) l1) as [[u|e|] l2]; [|done..].
  apply IH. lia.
Qed.

Lemma delete_loop_total (d n : Z) (fuel : nat) :
  1 <= d ->
  forall i l, (Z.to_nat i < fuel)%nat ->
              fst (delete_loop fuel d n i l) <> OutOfFuel.
Proof.
  intros Hd. induction fuel as [|fuel IH]; intros i l Hfuel; [lia|].
  simpl. destruct (decide (1 <= i < n)) as [Hpos|]; [|done].
  pose proof (parent_lt d Hd i ltac:(lia)).
  unfold bind at 1.
  pose proof (fueled_list_get (parent d i) l ltac:(done)) as [Hg _].
  destruct (list_get (parent d i) l) as [[p|e|] l1]; [|done..].
  unfold bind at 1.
  pose proof (fueled_list_get i l1 ltac:(done)) as [Hg' _].
  destruct (list_get i l1) as [[c|e|] l2]; [|done..].
  destruct (decide (p < c)); [|done]. unfold bind.
  pose proof (fueled_swap i (parent d i) l2 ltac:(done)) as [Hsw _].
  destruct (_swap i (parent d i) l2) as [[u|e|] l3]; [|done..].
  apply IH. lia.
Qed.

Lemma fueled_self_max_heapify (node : Z) :
  fueled valid_children (self_max_heapify node).
Proof.
  intros self Hself. rewrite self_max_heapify_unfold.
  pose proof (max_heapify_total (_children self) (_heap_size self) node
                (_heap self) Hself).
  by destruct (max_heapify _ _ _ _ _).
Qed.

Lemma fueled_set_heap_size (f : DAryHeap -> Z) :
  fueled valid_children (modify (fun self => set_heap_size (f self) self)).
Proof. by apply fueled_modify. Qed.

Lemma fueled_build_max_heap (data : list Z) :
  fueled valid_children (build_max_heap data).
Proof.
  unfold build_max_heap.
  apply fueled_bind; [by apply fueled_modify|]. intros _.
  apply fueled_bind_get. intros self Hself.
  by apply fueled_for; [apply fueled_self_max_heapify|].
Qed.

Lemma fueled_increase_key (index k : Z) :
  fueled valid_children (increase_key index k).
Proof.
  unfold increase_key.
  apply fueled_bind; [apply fueled_on_heap, fueled_list_get|]. intros cur.
  case_decide; [apply fueled_raise|].
  apply fueled_bind; [apply fueled_on_heap, fueled_list_set|]. intros _.
  apply fueled_bind_get. intros self Hself. unfold on_heap.
  pose proof (sift_up_total (_children self) k (sift_fuel index)
                ltac:(unfold valid_children in Hself; lia) index (_heap self)
                ltac:(unfold sift_fuel; lia)).
  by destruct (sift_up _ _ _ _ _).
Qed.

Lemma fueled_max_heap_insert (k : Z) :
  fueled valid_children (max_heap_insert k).
Proof.
  unfold max_heap_insert.
  apply fueled_bind; [apply fueled_set_heap_size|]. intros _.
  apply fueled_bind; [apply fueled_on_heap, fueled_list_append|]. intros _.
  apply fueled_bind_get. intros self Hself. unfold on_heap.
  pose proof (sift_up_total (_children self) k (sift_fuel (_heap_size self - 1))
                ltac:(unfold valid_children in Hself; lia)
                (_heap_size self - 1) (_heap self)
                ltac:(unfold sift_fuel; lia)).
  by destruct (sift_up _ _ _ _ _).
Qed.

Lemma fueled_delete_key (pos : Z) : fueled valid_children (delete_key pos).
Proof.
  unfold delete_key. apply fueled_bind_get. intros self Hself.
  case_decide as Hdec; [done|]. clear Hdec.
  generalize (_heap_size self - 1). intros last_index. revert self Hself.
  apply fueled_bind; [apply fueled_on_heap, fueled_list_get|]. intros last.
  apply fueled_bind; [apply fueled_on_heap, fueled_list_set|]. intros _.
  apply fueled_bind; [apply fueled_on_heap, fueled_list_pop|]. intros _.
  apply fueled_bind; [apply fueled_set_heap_size|]. intros _.
  apply fueled_bind_get. intros self Hself.
  apply (fueled_bind valid_children); [|intros ?; apply fueled_self_max_heapify|done].
  intros s Hs. unfold on_heap.
  pose proof (delete_loop_total (_children self) (_heap_size self) (sift_fuel pos)
                ltac:(unfold valid_children in Hself; lia) pos (_heap s)
                ltac:(unfold sift_fuel; lia)).
  by destruct (delete_loop _ _ _ _ _).
Qed.

Lemma fueled_extract_max : fueled valid_children extract_max.
Proof.
  unfold extract_max. apply fueled_bind_get. intros self Hself.
  case_decide as Hdec; [done|]. clear Hdec.
  generalize (_heap_size self - 1). intros last_index. revert self Hself.
  apply fueled_bind; [apply fueled_on_heap, fueled_list_get|]. intros max_value.
  apply fueled_bind; [apply fueled_on_heap, fueled_list_get|]. intros last.
  apply fueled_bind; [apply fueled_on_heap, fueled_list_set|]. intros _.
  apply fueled_bind; [apply fueled_on_heap, fueled_list_pop|]. intros _.
  apply fueled_bind; [apply fueled_set_heap_size|]. intros _.
  apply fueled_bind; [apply fueled_self_max_heapify|]. intros _.
  apply fueled_ret.
Qed.

Lemma fueled_heap_sort (array : list Z) : fueled valid_children (heap_sort array).
Proof.
  unfold heap_sort.
  apply fueled_bind; [by apply fueled_modify|]. intros _.
  apply fueled_bind_get. intros self Hself.
  generalize (_heap_size self). intros temp_size. revert self Hself.
  apply fueled_bind; [apply fueled_build_max_heap|]. intros _.
  apply fueled_bind_get. intros self Hself.
  apply (fueled_bind valid_children); [| |done].
  - apply fueled_for. intros i. unfold heap_sort_step.
    apply fueled_bind; [apply fueled_on_heap, fueled_swap|]. intros _.
    apply fueled_bind; [apply fueled_set_heap_size|]. intros _.
    apply fueled_self_max_heapify.
  - intros _. by apply fueled_modify.
Qed.

(** What the constructor returns: at least two children per node, no
    keys, and the size it was given.  The methods keep [valid_children]
    (second half of [fueled]). *)
Lemma init_valid_children (heap_size children : Z) (self : DAryHeap) :
  __init__ heap_size children = inr self ->
  valid_children self /\ _heap self = [] /\ _heap_size self = heap_size.
Proof.
  unfold __init__, valid_children. case_decide; [done|].
  intros [= <-]. simpl. repeat split. lia.
Qed.

(** On a heap made by the constructor no method exhausts a budget: every
    run of the model ends the way the Python call ends, with a value or
    with an exception. *)
Lemma out_of_fuel_unreachable (self : DAryHeap) :
  2 <= _children self ->
  (forall data, fst (build_max_heap data self) <> OutOfFuel)
  /\ (forall index k, fst (increase_key index k self) <> OutOfFuel)
  /\ (forall k, fst (max_heap_insert k self) <> OutOfFuel)
  /\ (forall pos, fst (delete_key pos self) <> OutOfFuel)
  /\ fst (extract_max self) <> OutOfFuel
  /\ (forall array, fst (heap_sort array self) <> OutOfFuel).
Proof.
  intros Hd. repeat split; intros.
  - by apply (fueled_build_max_heap data self).
  - by apply (fueled_increase_key index k self).
  - by apply (fueled_max_heap_insert k self).
  - by apply (fueled_delete_key pos self).
  - by apply (fueled_extract_max self).
  - by apply (fueled_heap_sort array self).
Qed.

(** * Main theorems: the specification against the code *)

(** ** Index arithmetic *)

(** C9. For a branching factor [d >= 2], a parent index [p >= 0] and
    [k] in [1..d], the parent of the [k]-th child of [p] is [p]. *)
Theorem parent_k_child (d k p : Z) :
  2 <= d -> 0 <= p -> 1 <= k <= d -> parent d (k_child d k p) = p.
Proof.
  intros Hd _ Hk. unfold k_child. apply parent_child; lia.
Qed.

Lemma parent_k_child_witness :
  2 <= 3 /\ 0 <= 4 /\ 1 <= 2 <= 3 /\ parent 3 (k_child 3 2 4) = 4.
Proof.
  split; [lia|]. split; [lia|]. split; [lia|].
  apply (parent_k_child 3 2 4); lia.
Defined.

(** C10. For a branching factor [d >= 2], [parent(0)] is [-1]: the floor
    of [-1 / d]. *)
Theorem parent_root (d : Z) : 2 <= d -> parent d 0 = -1.
Proof.
  intros Hd. unfold parent. simpl.
  symmetry. apply (Z.div_unique_pos (-1) d (-1) (d - 1)); lia.
Qed.

Lemma parent_root_witness : 2 <= 2 /\ parent 2 0 = -1.
Proof. split; [lia|]. apply (parent_root 2). lia. Defined.

(** ** [build_max_heap] *)

(** [build_max_heap] assigns the list and nothing else: however the
    call ends, the tracked size is the one the heap had before and the
    list has the length of [data]. *)
Lemma build_max_heap_keeps_size (data : list Z) (self : DAryHeap) :
  _heap_size (snd (build_max_heap data self)) = _heap_size self
  /\ length (_heap (snd (build_max_heap data self))) = length data
  /\ (_heap_size (snd (build_max_heap data self))
      = Z.of_nat (length (_heap (snd (build_max_heap data self))))
      <-> _heap_size self = Z.of_nat (length data)).
Proof.
  destruct (build_max_heap data self) as [r self'] eqn:Hrun.
  apply build_max_heap_fields in Hrun as (Hsize & _ & Hlen). simpl.
  rewrite Hsize, Hlen. done.
Qed.

(** C1.  After [build_max_heap(data)] the tracked size should be the
    length of [data]; the class documents [_heap_size] as "the length of
    the heap list" and [heap_sort] sets it to [len(array)] before it
    builds.  [build_max_heap] itself does not: on the empty heap that
    [DAryHeap(0, 2)] constructs, whose size is the length of its list,
    [build_max_heap([1, 2, 3])] returns with three keys stored and the
    size still 0.  The loop, bounded by that size, sifts nothing, so the
    keys are left as given and are no max-heap, and [extract_max] then
    reports an empty heap.  [heap_sort] on the same object ends with the
    size 3. *)
Theorem build_max_heap_size_not_set :
  __init__ 0 2 = inr (mkDAryHeap 2 [] 0)
  /\ consistent (mkDAryHeap 2 [] 0)
  /\ build_max_heap [1; 2; 3] (mkDAryHeap 2 [] 0)
     = (Return tt, mkDAryHeap 2 [1; 2; 3] 0)
  /\ _heap_size (snd (build_max_heap [1; 2; 3] (mkDAryHeap 2 [] 0)))
     <> Z.of_nat (length [1; 2; 3])
  /\ ~ consistent (snd (build_max_heap [1; 2; 3] (mkDAryHeap 2 [] 0)))
  /\ ~ max_heap_property 2 (Z.of_nat (length [1; 2; 3])) [1; 2; 3]
  /\ extract_max (mkDAryHeap 2 [1; 2; 3] 0)
     = (Raise HeapUnderflowError, mkDAryHeap 2 [1; 2; 3] 0)
  /\ heap_sort [1; 2; 3] (mkDAryHeap 2 [] 0)
     = (Return tt, mkDAryHeap 2 [1; 2; 3] 3).
Proof.
  split; [reflexivity|]. split; [split; [reflexivity|simpl; lia]|].
  split; [reflexivity|]. split; [vm_compute; discriminate|].
  split; [intros [Hsize _]; vm_compute in Hsize; discriminate|].
  split; [|split; vm_compute; reflexivity].
  intros H.
  assert (1 >= 2)
    by (apply (H 0 1 1 2); [simpl; lia|lia|simpl; lia|reflexivity|reflexivity]).
  lia.
Qed.

(** The range of the loop of [build_max_heap]: [size // 2] entries, the
    [j]-th being [size // 2 - 1 - j]. *)
Lemma build_indices_lookup (size : Z) (j : nat) :
  build_indices size !! j
  = if decide (Z.of_nat j < size / 2)
    then Some (size / 2 - 1 - Z.of_nat j) else None.
Proof.
  unfold build_indices, range_down.
  rewrite list_lookup_fmap.
  replace (size / 2 - 1 - -1) with (size / 2) by lia.
  case_decide.
  - rewrite lookup_seqZ_lt by done. simpl. f_equal; lia.
  - by rewrite lookup_seqZ_ge by lia.
Qed.

Lemma length_build_indices (size : Z) :
  length (build_indices size) = Z.to_nat (size / 2).
Proof.
  unfold build_indices, range_down. rewrite length_fmap, length_seqZ. lia.
Qed.

(** A logged loop ends as the loop does and has recorded the positions
    at which the body was called: an initial part of the range, and all
    of it when the loop returns. *)
Lemma for_logged (body : Z -> M DAryHeap unit) (l : list Z) :
  forall (s : DAryHeap) (log : list Z),
  exists called,
    for_ l (fun i => logged i (body i)) (s, log)
    = (fst (for_ l body s), (snd (for_ l body s), log ++ called))
    /\ called `prefix_of` l
    /\ (fst (for_ l body s) = Return tt -> called = l).
Proof.
  induction l as [|i l IH]; intros s log.
  - exists []. simpl. unfold ret. simpl. by rewrite app_nil_r.
  - cbn [for_]. unfold bind at 1. unfold logged at 1. cbn [fst snd].
    destruct (body i s) as [[u|e|] s1] eqn:Hbody;
      unfold bind; rewrite Hbody; cbn [fst snd].
    + destruct (IH s1 (log ++ [i])) as (called & Hrun & Hpre & Hall).
      exists (i :: called). rewrite Hrun, <- app_assoc.
      split; [reflexivity|]. split; [apply prefix_cons; exact Hpre|].
      intros Hret. by rewrite Hall.
    + exists [i]. split; [reflexivity|].
      split; [apply prefix_cons, prefix_nil|done].
    + exists [i]. split; [reflexivity|].
      split; [apply prefix_cons, prefix_nil|done].
Qed.

(** The logged build ends as [build_max_heap] does, on every heap and
    every list. *)
Lemma build_max_heap_logged_run (data : list Z) (self : DAryHeap) (log : list Z) :
  exists called,
    build_max_heap_logged data (self, log)
    = (fst (build_max_heap data self),
       (snd (build_max_heap data self), log ++ called))
    /\ called `prefix_of` build_indices (_heap_size self)
    /\ (fst (build_max_heap data self) = Return tt ->
        called = build_indices (_heap_size self)).
Proof.
  apply (for_logged self_max_heapify (build_indices (_heap_size self))
           (set_heap data self) log).
Qed.

(** C2, as the code has it.  On a heap with [d >= 2] whose tracked size
    is the length of [data], [build_max_heap(data)] calls [max_heapify]
    at exactly the positions [size // 2 - 1], ..., [0], in that order,
    whatever [d] is, and every one of these calls returns: the log of
    the calls has [size // 2] entries, the [j]-th being
    [size // 2 - 1 - j].  For [d = 2] these are the positions
    [size // d - 1], ..., [0] that the specification names. *)
Theorem build_max_heap_sift_order (data : list Z) (self : DAryHeap) :
  2 <= _children self -> _heap_size self = Z.of_nat (length data) ->
  exists self' calls,
    build_max_heap_logged data (self, []) = (Return tt, (self', calls))
    /\ build_max_heap data self = (Return tt, self')
    /\ length calls = Z.to_nat (_heap_size self / 2)
    /\ (forall j : nat,
          (j < length calls)%nat ->
          calls !! j = Some (_heap_size self / 2 - 1 - Z.of_nat j))
    /\ (_children self = 2 ->
        calls = spec_build_indices (_children self) (_heap_size self)).
Proof.
  intros Hd Hsize.
  destruct (build_max_heap_run data self Hd ltac:(lia)) as (l' & Hrun & _).
  destruct (build_max_heap_logged_run data self []) as (called & Hlog & _ & Hall).
  rewrite Hrun in Hlog, Hall. simpl in Hlog, Hall.
  specialize (Hall eq_refl). subst called.
  exists (set_heap l' self), (build_indices (_heap_size self)).
  split; [exact Hlog|]. split; [exact Hrun|].
  split; [apply length_build_indices|]. split.
  - intros j Hj. rewrite length_build_indices in Hj.
    rewrite build_indices_lookup. rewrite decide_True; [done|].
    pose proof (Z.div_pos (_heap_size self) 2 ltac:(lia) ltac:(lia)). lia.
  - intros ->. reflexivity.
Qed.

Lemma build_max_heap_sift_order_witness :
  2 <= _children (mkDAryHeap 3 [] 9)
  /\ _heap_size (mkDAryHeap 3 [] 9)
     = Z.of_nat (length [1; 2; 3; 4; 5; 6; 7; 8; 9])
  /\ exists self' calls,
       build_max_heap_logged [1; 2; 3; 4; 5; 6; 7; 8; 9] (mkDAryHeap 3 [] 9, [])
       = (Return tt, (self', calls))
       /\ build_max_heap [1; 2; 3; 4; 5; 6; 7; 8; 9] (mkDAryHeap 3 [] 9)
          = (Return tt, self')
       /\ length calls = Z.to_nat (_heap_size (mkDAryHeap 3 [] 9) / 2)
       /\ (forall j : nat,
             (j < length calls)%nat ->
             calls !! j
             = Some (_heap_size (mkDAryHeap 3 [] 9) / 2 - 1 - Z.of_nat j)).
Proof.
  assert (Hd : 2 <= _children (mkDAryHeap 3 [] 9)) by (simpl; lia).
  assert (Hs : _heap_size (mkDAryHeap 3 [] 9)
               = Z.of_nat (length [1; 2; 3; 4; 5; 6; 7; 8; 9])) by reflexivity.
  split; [exact Hd|]. split; [exact Hs|].
  destruct (build_max_heap_sift_order [1; 2; 3; 4; 5; 6; 7; 8; 9]
              (mkDAryHeap 3 [] 9) Hd Hs)
    as (self' & calls & Hlog & Hrun & Hlen & Hidx & _).
  exists self', calls.
  split; [exact Hlog|]. split; [exact Hrun|]. split; [exact Hlen|exact Hidx].
Defined.

(** C2 fails as stated: on a heap with three children per node whose
    size is the length of a list of nine keys, [build_max_heap] returns
    having called [max_heapify] at 3, 2, 1, 0, not only at
    [9 // 3 - 1 = 2], 1, 0. *)
Lemma build_max_heap_order_counterexample :
  _heap_size (mkDAryHeap 3 [] 9) = Z.of_nat (length [1; 2; 3; 4; 5; 6; 7; 8; 9])
  /\ build_max_heap_logged [1; 2; 3; 4; 5; 6; 7; 8; 9] (mkDAryHeap 3 [] 9, [])
     = (Return tt, (mkDAryHeap 3 [9; 7; 8; 4; 5; 6; 2; 1; 3] 9, [3; 2; 1; 0]))
  /\ spec_build_indices (_children (mkDAryHeap 3 [] 9))
                        (_heap_size (mkDAryHeap 3 [] 9)) = [2; 1; 0]
  /\ snd (snd (build_max_heap_logged [1; 2; 3; 4; 5; 6; 7; 8; 9]
                                     (mkDAryHeap 3 [] 9, [])))
     <> spec_build_indices (_children (mkDAryHeap 3 [] 9))
                           (_heap_size (mkDAryHeap 3 [] 9)).
Proof.
  split; [reflexivity|]. split; [vm_compute; reflexivity|].
  split; [reflexivity|]. vm_compute. discriminate.
Qed.

(** When the tracked size exceeds the list the first call already
    raises and the remaining positions are never reached. *)
Example run_build_size_exceeds_list :
  build_max_heap_logged [1; 2; 3] (mkDAryHeap 2 [] 10, [])
  = (Raise IndexError, (mkDAryHeap 2 [1; 2; 3] 10, [4])).
Proof. vm_compute. reflexivity. Qed.

(** C3. On a heap with [d >= 2] whose tracked size is the length of
    [data], [build_max_heap(data)] returns; afterwards the max-heap
    property holds over the whole backing list, which is a rearrangement
    of [data]; from the empty list it yields the empty heap. *)
Theorem build_max_heap_correct (data : list Z) (self : DAryHeap) :
  2 <= _children self -> _heap_size self = Z.of_nat (length data) ->
  exists self',
    build_max_heap data self = (Return tt, self')
    /\ max_heap_property (_children self') (Z.of_nat (length (_heap self')))
                         (_heap self')
    /\ heap_ok self'
    /\ consistent self'
    /\ _children self' = _children self
    /\ _heap self' ≡ₚ data
    /\ (data = [] -> _heap self' = []).
Proof.
  intros Hd Hsize.
  destruct (build_max_heap_run data self Hd ltac:(lia))
    as (l' & Hrun & Hperm & Hlen & _ & Hord).
  exists (set_heap l' self). split; [done|].
  unfold heap_ok, consistent. heap_simpl.
  apply max_heap_property_ordered in Hord; [|lia|lia].
  split; [by rewrite Hlen, <- Hsize|]. split; [done|].
  split; [split; [lia|done]|]. split; [done|]. split; [done|].
  intros ->. by apply Permutation_nil_r in Hperm.
Qed.

Lemma build_max_heap_correct_witness :
  2 <= _children (mkDAryHeap 3 [] 6)
  /\ _heap_size (mkDAryHeap 3 [] 6) = Z.of_nat (length [4; 1; 7; 3; 9; 2])
  /\ exists self',
       build_max_heap [4; 1; 7; 3; 9; 2] (mkDAryHeap 3 [] 6) = (Return tt, self')
       /\ max_heap_property (_children self') (Z.of_nat (length (_heap self')))
                            (_heap self')
       /\ heap_ok self'
       /\ consistent self'
       /\ _children self' = _children (mkDAryHeap 3 [] 6)
       /\ _heap self' ≡ₚ [4; 1; 7; 3; 9; 2]
       /\ ([4; 1; 7; 3; 9; 2] = [] -> _heap self' = []).
Proof.
  split; [simpl; lia|]. split; [reflexivity|].
  apply (build_max_heap_correct [4; 1; 7; 3; 9; 2] (mkDAryHeap 3 [] 6));
    [simpl; lia|reflexivity].
Defined.

(** ** [extract_max] *)

(** C4. On a heap whose size is not negative, [extract_max] raises
    [HeapUnderflowError] exactly when the size is 0, and then changes
    nothing.  On a heap of size at least 1 that satisfies the max-heap
    property and whose size is the length of the list, it returns the
    maximum of the stored keys, the size drops by one, the stored keys
    are the former ones less one occurrence of the returned key, and the
    property holds again. *)
Theorem extract_max_correct (self : DAryHeap) :
  (0 <= _heap_size self ->
   (fst (extract_max self) = Raise HeapUnderflowError <-> _heap_size self = 0)
   /\ (_heap_size self = 0 ->
       extract_max self = (Raise HeapUnderflowError, self)))
  /\ (consistent self -> heap_ok self -> 1 <= _heap_size self ->
      exists self',
        extract_max self = (Return (key (_heap self) 0), self')
        /\ key (_heap self) 0 ∈ _heap self
        /\ (forall x, x ∈ _heap self -> x <= key (_heap self) 0)
        /\ _heap_size self' = _heap_size self - 1
        /\ _heap self ≡ₚ key (_heap self) 0 :: _heap self'
        /\ heap_ok self'
        /\ consistent self').
Proof.
  split.
  - intros Hsize.
    assert (Hzero : _heap_size self = 0 ->
                    extract_max self = (Raise HeapUnderflowError, self)).
    { intros Hz. unfold extract_max, bind, get. by rewrite decide_True by lia. }
    split; [|done]. split.
    + intros Hraise. destruct (decide (_heap_size self = 0)) as [|Hne]; [done|].
      by apply extract_max_no_underflow in Hraise; [|lia].
    + intros Hz. by rewrite Hzero.
  - intros Hcons Hok Hsize.
    destruct (extract_max_run self Hcons Hsize) as (l' & Hrun & Hperm & Hlen & Hord).
    destruct Hcons as [Hcons Hd].
    eexists. split; [exact Hrun|]. unfold heap_ok, consistent. heap_simpl.
    split; [|split]; [| |repeat split; auto with lia].
    + apply list_elem_of_lookup. exists (Z.to_nat 0). apply key_lookup. lia.
    + intros x Hx. apply list_elem_of_lookup in Hx as [i Hi].
      pose proof (lookup_lt_Some _ _ _ Hi) as Hlt.
      replace i with (Z.to_nat (Z.of_nat i)) in Hi by lia.
      apply lookup_key in Hi. subst x.
      apply (root_is_max (_children self) (_heap_size self)); [lia| |lia].
      apply max_heap_property_ordered; [lia|lia|done].
Qed.

Lemma extract_max_correct_witness :
  0 <= _heap_size (mkDAryHeap 2 [] 0)
  /\ extract_max (mkDAryHeap 2 [] 0)
     = (Raise HeapUnderflowError, mkDAryHeap 2 [] 0)
  /\ consistent (mkDAryHeap 2 [9; 4; 7; 3; 1; 2] 6)
  /\ heap_ok (mkDAryHeap 2 [9; 4; 7; 3; 1; 2] 6)
  /\ 1 <= _heap_size (mkDAryHeap 2 [9; 4; 7; 3; 1; 2] 6)
  /\ exists self',
       extract_max (mkDAryHeap 2 [9; 4; 7; 3; 1; 2] 6) = (Return 9, self')
       /\ _heap_size self' = 5
       /\ heap_ok self'.
Proof.
  assert (H0 : 0 <= _heap_size (mkDAryHeap 2 [] 0)) by (simpl; lia).
  split; [exact H0|].
  split.
  { apply (proj2 (proj1 (extract_max_correct (mkDAryHeap 2 [] 0)) H0)).
    reflexivity. }
  assert (Hc : consistent (mkDAryHeap 2 [9; 4; 7; 3; 1; 2] 6))
    by (split; [reflexivity|simpl; lia]).
  assert (Hok : heap_ok (mkDAryHeap 2 [9; 4; 7; 3; 1; 2] 6))
    by (apply is_max_heap_sound; vm_compute; reflexivity).
  assert (Hs : 1 <= _heap_size (mkDAryHeap 2 [9; 4; 7; 3; 1; 2] 6))
    by (simpl; lia).
  split; [exact Hc|]. split; [exact Hok|]. split; [exact Hs|].
  destruct (proj2 (extract_max_correct (mkDAryHeap 2 [9; 4; 7; 3; 1; 2] 6))
              Hc Hok Hs)
    as (self' & Hrun & _ & _ & Hsize & _ & Hok' & _).
  exists self'. split; [exact Hrun|]. split; [exact Hsize|exact Hok'].
Defined.

(** ** [increase_key] *)

(** C5. On a heap whose size is the length of the list and at a position
    in [0, size), [increase_key] raises [IllegalKeyError] exactly when
    the new key is not strictly greater than the key stored there; a
    failed call leaves the heap as it was; a successful call replaces
    the key at the position by the new key, and if the max-heap property
    held before it holds afterwards. *)
Theorem increase_key_correct (index k : Z) (self : DAryHeap) :
  consistent self -> 0 <= index < _heap_size self ->
  (fst (increase_key index k self) = Raise IllegalKeyError
   <-> k <= key (_heap self) index)
  /\ (forall e self', increase_key index k self = (Raise e, self') ->
                      self' = self)
  /\ (key (_heap self) index < k ->
      exists self',
        increase_key index k self = (Return tt, self')
        /\ _heap self' ≡ₚ <[Z.to_nat index := k]> (_heap self)
        /\ _heap_size self' = _heap_size self
        /\ consistent self'
        /\ (heap_ok self -> heap_ok self')).
Proof.
  intros Hcons Hindex.
  assert (Hfail : k <= key (_heap self) index ->
                  increase_key index k self = (Raise IllegalKeyError, self)).
  { intros Hle. destruct Hcons as [Hcons _].
    unfold increase_key, bind. unfold on_heap at 1.
    rewrite list_get_run by lia. rewrite decide_True by done.
    unfold raise. by rewrite set_heap_id. }
  assert (Hgood : key (_heap self) index < k ->
            exists self',
              increase_key index k self = (Return tt, self')
              /\ _heap self' ≡ₚ <[Z.to_nat index := k]> (_heap self)
              /\ _heap_size self' = _heap_size self
              /\ consistent self'
              /\ (heap_ok self -> heap_ok self')).
  { intros Hlt.
    destruct (increase_key_run index k self Hcons Hindex Hlt)
      as (l' & Hrun & Hperm & Hlen & Hord).
    exists (set_heap l' self). split; [done|]. unfold heap_ok, consistent.
    heap_simpl. destruct Hcons as [Hcons Hd].
    split; [done|]. split; [done|]. split; [split; [lia|done]|done]. }
  split; [split|split; [|done]].
  - intros Hraise. destruct (decide (k <= key (_heap self) index)); [done|].
    destruct Hgood as (self' & Hrun & _); [lia|].
    rewrite Hrun in Hraise. discriminate.
  - intros Hle. by rewrite Hfail.
  - intros e self' Hrun.
    destruct (decide (k <= key (_heap self) index)) as [Hle|Hgt].
    + rewrite Hfail in Hrun by done. by injection Hrun as _ <-.
    + destruct Hgood as (self'' & Hrun' & _); [lia|].
      rewrite Hrun' in Hrun. discriminate.
Qed.

Lemma increase_key_correct_witness :
  consistent (mkDAryHeap 3 [5; 2; 3; 4; 1] 5)
  /\ 0 <= 4 < _heap_size (mkDAryHeap 3 [5; 2; 3; 4; 1] 5)
  /\ key (_heap (mkDAryHeap 3 [5; 2; 3; 4; 1] 5)) 4 < 10
  /\ heap_ok (mkDAryHeap 3 [5; 2; 3; 4; 1] 5)
  /\ exists self',
       increase_key 4 10 (mkDAryHeap 3 [5; 2; 3; 4; 1] 5) = (Return tt, self')
       /\ heap_ok self'.
Proof.
  assert (Hc : consistent (mkDAryHeap 3 [5; 2; 3; 4; 1] 5))
    by (split; [reflexivity|simpl; lia]).
  assert (Hi : 0 <= 4 < _heap_size (mkDAryHeap 3 [5; 2; 3; 4; 1] 5))
    by (simpl; lia).
  assert (Hlt : key (_heap (mkDAryHeap 3 [5; 2; 3; 4; 1] 5)) 4 < 10)
    by (vm_compute; reflexivity).
  assert (Hok : heap_ok (mkDAryHeap 3 [5; 2; 3; 4; 1] 5))
    by (apply is_max_heap_sound; vm_compute; reflexivity).
  split; [exact Hc|]. split; [exact Hi|]. split; [exact Hlt|]. split; [exact Hok|].
  destruct (increase_key_correct 4 10 (mkDAryHeap 3 [5; 2; 3; 4; 1] 5) Hc Hi)
    as (_ & _ & Hgood).
  destruct (Hgood Hlt) as (self' & Hrun & _ & _ & _ & Hok').
  exists self'. split; [exact Hrun|exact (Hok' Hok)].
Defined.

(** ** [delete_key] *)

(** C6. On a heap whose size is the length of the list, [delete_key]
    raises [IndexError] exactly when the position is outside [0, size),
    and then changes nothing.  At a position inside, it returns, the
    size drops by one, the stored keys are the former ones less one
    occurrence of the key that was at the position, and if the max-heap
    property held before it holds afterwards; the last position is no
    exception. *)
Theorem delete_key_correct (pos : Z) (self : DAryHeap) :
  consistent self ->
  (fst (delete_key pos self) = Raise IndexError
   <-> ~ 0 <= pos < _heap_size self)
  /\ (~ 0 <= pos < _heap_size self ->
      delete_key pos self = (Raise IndexError, self))
  /\ (0 <= pos < _heap_size self ->
      exists self',
        delete_key pos self = (Return tt, self')
        /\ _heap_size self' = _heap_size self - 1
        /\ _heap self ≡ₚ key (_heap self) pos :: _heap self'
        /\ consistent self'
        /\ (heap_ok self -> heap_ok self')).
Proof.
  intros Hcons.
  assert (Hfail : ~ 0 <= pos < _heap_size self ->
                  delete_key pos self = (Raise IndexError, self)).
  { intros Hout. unfold delete_key, bind, get.
    by rewrite decide_True by lia. }
  assert (Hgood : 0 <= pos < _heap_size self ->
            exists self',
              delete_key pos self = (Return tt, self')
              /\ _heap_size self' = _heap_size self - 1
              /\ _heap self ≡ₚ key (_heap self) pos :: _heap self'
              /\ consistent self'
              /\ (heap_ok self -> heap_ok self')).
  { intros Hpos.
    destruct (delete_key_run pos self Hcons Hpos)
      as (l' & Hrun & Hperm & Hlen & Hord).
    eexists. split; [exact Hrun|]. unfold heap_ok, consistent. heap_simpl.
    destruct Hcons as [Hcons Hd]. repeat split; auto with lia. }
  split; [split|done].
  - intros Hraise Hpos. destruct (Hgood Hpos) as (self' & Hrun & _).
    rewrite Hrun in Hraise. discriminate.
  - intros Hout. by rewrite Hfail.
Qed.

Lemma delete_key_correct_witness :
  consistent (mkDAryHeap 3 [9; 4; 7; 3; 1; 2] 6)
  /\ 0 <= 1 < _heap_size (mkDAryHeap 3 [9; 4; 7; 3; 1; 2] 6)
  /\ heap_ok (mkDAryHeap 3 [9; 4; 7; 3; 1; 2] 6)
  /\ exists self',
       delete_key 1 (mkDAryHeap 3 [9; 4; 7; 3; 1; 2] 6) = (Return tt, self')
       /\ _heap_size self' = _heap_size (mkDAryHeap 3 [9; 4; 7; 3; 1; 2] 6) - 1
       /\ heap_ok self'.
Proof.
  assert (Hc : consistent (mkDAryHeap 3 [9; 4; 7; 3; 1; 2] 6))
    by (split; [reflexivity|simpl; lia]).
  assert (Hi : 0 <= 1 < _heap_size (mkDAryHeap 3 [9; 4; 7; 3; 1; 2] 6))
    by (simpl; lia).
  assert (Hok : heap_ok (mkDAryHeap 3 [9; 4; 7; 3; 1; 2] 6))
    by (apply is_max_heap_sound; vm_compute; reflexivity).
  split; [exact Hc|]. split; [exact Hi|]. split; [exact Hok|].
  destruct (delete_key_correct 1 (mkDAryHeap 3 [9; 4; 7; 3; 1; 2] 6) Hc)
    as (_ & _ & Hgood).
  destruct (Hgood Hi) as (self' & Hrun & Hsize & _ & _ & Hok').
  exists self'. split; [exact Hrun|]. split; [exact Hsize|exact (Hok' Hok)].
Defined.

(** ** [max_heap_insert] *)

(** C7. On a heap that satisfies the max-heap property and whose size is
    the length of the list, [max_heap_insert] returns; its result is the
    sift-up, from the new last position, of the list with the key
    appended; the size grows by one, the stored keys are the former ones
    plus the key, and the property holds again. *)
Theorem max_heap_insert_correct (k : Z) (self : DAryHeap) :
  consistent self -> heap_ok self ->
  exists self',
    max_heap_insert k self = (Return tt, self')
    /\ sift_up (sift_fuel (_heap_size self)) (_children self) (_heap_size self) k
               (_heap self ++ [k]) = (Return tt, _heap self')
    /\ _heap_size self' = _heap_size self + 1
    /\ _heap self' ≡ₚ _heap self ++ [k]
    /\ _children self' = _children self
    /\ consistent self'
    /\ heap_ok self'.
Proof.
  intros Hcons Hok.
  destruct (max_heap_insert_run k self Hcons) as (l' & Hrun & Hperm & Hlen & Hord).
  eexists. split; [exact Hrun|]. unfold heap_ok, consistent. heap_simpl.
  destruct Hcons as [Hcons Hd].
  split; [|repeat split; auto with lia].
  revert Hrun. unfold max_heap_insert, bind, modify, get, on_heap, list_append.
  heap_simpl. replace (_heap_size self + 1 - 1) with (_heap_size self) by lia.
  destruct (sift_up _ _ _ _ _) as [r l1]. by intros [= -> ->].
Qed.

Lemma max_heap_insert_correct_witness :
  consistent (mkDAryHeap 2 [7; 4; 1; 3] 4)
  /\ heap_ok (mkDAryHeap 2 [7; 4; 1; 3] 4)
  /\ exists self',
       max_heap_insert 9 (mkDAryHeap 2 [7; 4; 1; 3] 4) = (Return tt, self')
       /\ _heap_size self' = _heap_size (mkDAryHeap 2 [7; 4; 1; 3] 4) + 1
       /\ _heap self' ≡ₚ _heap (mkDAryHeap 2 [7; 4; 1; 3] 4) ++ [9]
       /\ heap_ok self'.
Proof.
  assert (Hc : consistent (mkDAryHeap 2 [7; 4; 1; 3] 4))
    by (split; [reflexivity|simpl; lia]).
  assert (Hok : heap_ok (mkDAryHeap 2 [7; 4; 1; 3] 4))
    by (apply is_max_heap_sound; vm_compute; reflexivity).
  split; [exact Hc|]. split; [exact Hok|].
  destruct (max_heap_insert_correct 9 (mkDAryHeap 2 [7; 4; 1; 3] 4) Hc Hok)
    as (self' & Hrun & _ & Hsize & Hperm & _ & _ & Hok').
  exists self'. split; [exact Hrun|]. split; [exact Hsize|].
  split; [exact Hperm|exact Hok'].
Defined.

(** ** [heap_sort] *)

(** C8. On any heap object with [d >= 2] and any list, [heap_sort]
    returns; the list, rearranged in place, is in non-decreasing order
    and is a permutation of the input; the tracked size ends as the
    length of the list.  Hence a list that is already in non-decreasing
    order comes out unchanged, and sorting the output again gives the
    output. *)
Theorem heap_sort_correct (array : list Z) (self : DAryHeap) :
  2 <= _children self ->
  exists self',
    heap_sort array self = (Return tt, self')
    /\ Sorted Z.le (_heap self')
    /\ _heap self' ≡ₚ array
    /\ _heap_size self' = Z.of_nat (length array)
    /\ _children self' = _children self
    /\ (Sorted Z.le array -> _heap self' = array)
    /\ heap_sort (_heap self') self' = (Return tt, self').
Proof.
  intros Hd.
  destruct (heap_sort_run array self Hd) as (l' & Hrun & Hperm & Hsorted).
  eexists. split; [exact Hrun|]. heap_simpl.
  do 4 (split; [done|]). split.
  - intros Harray. by apply (Sorted_unique Z.le).
  - set (self' := {| _children := _children self; _heap := l';
                     _heap_size := Z.of_nat (length array) |}).
    destruct (heap_sort_run l' self' Hd) as (l'' & Hrun' & Hperm' & Hsorted').
    rewrite Hrun'. unfold self'. heap_simpl.
    assert (l'' = l') as -> by (by apply (Sorted_unique Z.le)).
    by rewrite (Permutation_length Hperm).
Qed.

Lemma heap_sort_correct_witness :
  2 <= _children (mkDAryHeap 3 [] 0)
  /\ exists self',
       heap_sort [4; 1; 7; 3; 9; 2] (mkDAryHeap 3 [] 0) = (Return tt, self')
       /\ Sorted Z.le (_heap self')
       /\ _heap self' ≡ₚ [4; 1; 7; 3; 9; 2].
Proof.
  assert (Hd : 2 <= _children (mkDAryHeap 3 [] 0)) by (simpl; lia).
  split; [exact Hd|].
  destruct (heap_sort_correct [4; 1; 7; 3; 9; 2] (mkDAryHeap 3 [] 0) Hd)
    as (self' & Hrun & Hsorted & Hperm & _).
  exists self'. split; [exact Hrun|]. split; [exact Hsorted|exact Hperm].
Defined.

(** * Further properties of the code *)

(** ** The implicit tree *)

Lemma k_child_unique (d c : Z) :
  1 <= d -> 1 <= c ->
  0 <= parent d c < c
  /\ exists k,
       1 <= k <= d /\ k_child d k (parent d c) = c
       /\ forall k' p', 1 <= k' <= d -> k_child d k' p' = c ->
                        k' = k /\ p' = parent d c.
Proof.
  intros Hd Hc.
  split; [split; [apply parent_nonneg|apply parent_lt]; lia|].
  destruct (child_of_parent d Hd c) as (k & Hk & Hck).
  exists k. split; [done|]. split; [unfold k_child; lia|].
  intros k' p' Hk' Hc'. unfold k_child in Hc'.
  assert (p' = parent d c) as -> by (rewrite <- Hc'; by rewrite parent_child).
  lia.
Qed.

(** X1. Every position [c >= 1] has its parent strictly before it and is
    the [k]-th child of that parent for exactly one [k] in [1..d]; no
    other parent has [c] among its children. *)
Theorem position_has_one_parent (d c : Z) :
  2 <= d -> 1 <= c ->
  0 <= parent d c < c
  /\ exists k,
       1 <= k <= d /\ k_child d k (parent d c) = c
       /\ forall k' p', 1 <= k' <= d -> k_child d k' p' = c ->
                        k' = k /\ p' = parent d c.
Proof. intros Hd Hc. apply k_child_unique; lia. Qed.

Lemma position_has_one_parent_witness :
  2 <= 3 /\ 1 <= 7
  /\ 0 <= parent 3 7 < 7
  /\ exists k,
       1 <= k <= 3 /\ k_child 3 k (parent 3 7) = 7
       /\ forall k' p', 1 <= k' <= 3 -> k_child 3 k' p' = 7 ->
                        k' = k /\ p' = parent 3 7.
Proof.
  split; [lia|]. split; [lia|]. apply (position_has_one_parent 3 7); lia.
Defined.

(** ** [_swap] *)

Lemma wrap_range (len i : Z) : - len <= i < len -> 0 <= wrap len i < len.
Proof. intros H. unfold wrap. case_decide; lia. Qed.

Lemma norm_index_wrap (n : nat) (i : Z) :
  - Z.of_nat n <= i < Z.of_nat n ->
  norm_index n i = Some (Z.to_nat (wrap (Z.of_nat n) i)).
Proof. intros H. unfold norm_index, wrap. repeat case_decide; try lia; done. Qed.

Lemma norm_index_None (n : nat) (i : Z) :
  ~ - Z.of_nat n <= i < Z.of_nat n -> norm_index n i = None.
Proof. intros H. unfold norm_index. repeat case_decide; try lia; done. Qed.

Lemma getitem_wrap (l : list Z) (i : Z) :
  - Z.of_nat (length l) <= i < Z.of_nat (length l) ->
  getitem l i = Some (key l (wrap (Z.of_nat (length l)) i)).
Proof.
  intros H. unfold getitem. rewrite norm_index_wrap by done.
  apply key_lookup. by apply wrap_range.
Qed.

Lemma getitem_None (l : list Z) (i : Z) :
  ~ - Z.of_nat (length l) <= i < Z.of_nat (length l) -> getitem l i = None.
Proof. intros H. unfold getitem. by rewrite norm_index_None. Qed.

Lemma setitem_wrap (l : list Z) (i v : Z) :
  - Z.of_nat (length l) <= i < Z.of_nat (length l) ->
  setitem l i v = Some (<[Z.to_nat (wrap (Z.of_nat (length l)) i) := v]> l).
Proof. intros H. unfold setitem. by rewrite norm_index_wrap. Qed.

Lemma swap_run_wrap (l : list Z) (a b : Z) :
  - Z.of_nat (length l) <= a < Z.of_nat (length l) ->
  - Z.of_nat (length l) <= b < Z.of_nat (length l) ->
  _swap a b l
  = (Return tt,
     swapped l (wrap (Z.of_nat (length l)) a) (wrap (Z.of_nat (length l)) b)).
Proof.
  intros Ha Hb. unfold _swap, bind, list_get, list_set.
  rewrite !getitem_wrap by done. rewrite setitem_wrap by done.
  rewrite setitem_wrap by (rewrite length_insert; lia).
  by rewrite length_insert.
Qed.

Lemma swap_raise (l : list Z) (a b : Z) :
  ~ (- Z.of_nat (length l) <= a < Z.of_nat (length l)
     /\ - Z.of_nat (length l) <= b < Z.of_nat (length l)) ->
  _swap a b l = (Raise IndexError, l).
Proof.
  intros H. unfold _swap, bind, list_get.
  destruct (decide (- Z.of_nat (length l) <= a < Z.of_nat (length l))) as [Ha|Ha].
  - rewrite (getitem_wrap l a) by done. by rewrite (getitem_None l b) by tauto.
  - by rewrite (getitem_None l a).
Qed.

Lemma list_eq_key (l1 l2 : list Z) :
  length l1 = length l2 ->
  (forall j, 0 <= j < Z.of_nat (length l1) -> key l1 j = key l2 j) ->
  l1 = l2.
Proof.
  intros Hlen Hkey. apply list_eq. intros n.
  destruct (decide (n < length l1)%nat) as [Hlt|Hge].
  - replace n with (Z.to_nat (Z.of_nat n)) by lia.
    rewrite !key_lookup by lia. f_equal. apply Hkey. lia.
  - rewrite !lookup_ge_None_2 by lia. done.
Qed.

Lemma swapped_involutive (l : list Z) (p q : Z) :
  0 <= p < Z.of_nat (length l) -> 0 <= q < Z.of_nat (length l) ->
  swapped (swapped l p q) p q = l.
Proof.
  intros Hp Hq. apply list_eq_key; [by rewrite !length_swapped|].
  intros j Hj. rewrite !length_swapped in Hj.
  rewrite !key_swapped by (rewrite ?length_swapped; lia).
  repeat case_decide; subst; try lia; done.
Qed.

(** X2. [_swap(array, a, b)] accepts Python indices: when both lie in
    [-len, len) it returns, the list is rearranged, the items read at
    [a] and [b] are exchanged, and a second swap restores the list; when
    one of them lies outside it raises [IndexError] and the list is as
    it was. *)
Theorem _swap_exchanges (a b : Z) (l : list Z) :
  (- Z.of_nat (length l) <= a < Z.of_nat (length l) ->
   - Z.of_nat (length l) <= b < Z.of_nat (length l) ->
   exists l',
     _swap a b l = (Return tt, l')
     /\ l' ≡ₚ l
     /\ getitem l' a = getitem l b
     /\ getitem l' b = getitem l a
     /\ _swap a b l' = (Return tt, l))
  /\ (~ (- Z.of_nat (length l) <= a < Z.of_nat (length l)
         /\ - Z.of_nat (length l) <= b < Z.of_nat (length l)) ->
      _swap a b l = (Raise IndexError, l)).
Proof.
  split; [|apply swap_raise].
  intros Ha Hb. rewrite swap_run_wrap by done.
  pose proof (wrap_range _ _ Ha) as Ha'. pose proof (wrap_range _ _ Hb) as Hb'.
  eexists. split; [done|].
  split; [by apply swapped_Permutation|].
  rewrite !getitem_wrap by (rewrite ?length_swapped; done).
  rewrite length_swapped. rewrite !key_swapped by lia.
  split; [|split].
  - f_equal. repeat case_decide; congruence.
  - f_equal. by rewrite decide_True.
  - rewrite swap_run_wrap by (rewrite length_swapped; done).
    rewrite length_swapped. by rewrite swapped_involutive.
Qed.

Lemma _swap_exchanges_witness :
  - Z.of_nat (length [10; 20; 30]) <= -1 < Z.of_nat (length [10; 20; 30])
  /\ - Z.of_nat (length [10; 20; 30]) <= 0 < Z.of_nat (length [10; 20; 30])
  /\ (exists l',
        _swap (-1) 0 [10; 20; 30] = (Return tt, l')
        /\ l' ≡ₚ [10; 20; 30]
        /\ getitem l' (-1) = getitem [10; 20; 30] 0
        /\ getitem l' 0 = getitem [10; 20; 30] (-1)
        /\ _swap (-1) 0 l' = (Return tt, [10; 20; 30]))
  /\ ~ (- Z.of_nat (length [10; 20; 30]) <= 3 < Z.of_nat (length [10; 20; 30])
        /\ - Z.of_nat (length [10; 20; 30]) <= 0 < Z.of_nat (length [10; 20; 30]))
  /\ _swap 3 0 [10; 20; 30] = (Raise IndexError, [10; 20; 30]).
Proof.
  assert (Ha : - Z.of_nat (length [10; 20; 30]) <= -1
               < Z.of_nat (length [10; 20; 30])) by (simpl; lia).
  assert (Hb : - Z.of_nat (length [10; 20; 30]) <= 0
               < Z.of_nat (length [10; 20; 30])) by (simpl; lia).
  assert (Hc : ~ (- Z.of_nat (length [10; 20; 30]) <= 3
                  < Z.of_nat (length [10; 20; 30])
                  /\ - Z.of_nat (length [10; 20; 30]) <= 0
                     < Z.of_nat (length [10; 20; 30]))) by (simpl; lia).
  split; [exact Ha|]. split; [exact Hb|].
  split; [exact (proj1 (_swap_exchanges (-1) 0 [10; 20; 30]) Ha Hb)|].
  split; [exact Hc|].
  exact (proj2 (_swap_exchanges 3 0 [10; 20; 30]) Hc).
Defined.

(** ** [_find_max]: which position wins *)

Lemma find_max_loop_first (d n node : Z) (l : list Z) (cnt : nat) :
  1 <= d -> 0 <= node -> n <= Z.of_nat (length l) ->
  forall a acc,
    1 <= a -> 0 <= acc < Z.of_nat (length l) -> acc < d * node + a ->
    exists m,
      for_acc (seqZ a (Z.of_nat cnt))
        (fun max_value k =>
           let child := k_child d k node in
           if decide (child < n) then
             let* hc := list_get child in
             let* hm := list_get max_value in
             ret (if decide (hc > hm) then child else max_value)
           else ret max_value) acc l = (Return m, l)
      /\ (m = acc \/ exists k, a <= k < a + Z.of_nat cnt /\ m = d * node + k /\ m < n)
      /\ (m <> acc -> key l acc < key l m)
      /\ (forall k, a <= k < a + Z.of_nat cnt -> d * node + k < n ->
                    key l (d * node + k) <= key l m)
      /\ (forall k, a <= k < a + Z.of_nat cnt -> d * node + k < n ->
                    d * node + k < m -> key l (d * node + k) < key l m).
Proof.
  intros Hd Hnode Hn. induction cnt as [|cnt IH]; intros a acc Ha Hacc Hbefore.
  - exists acc. simpl. split; [done|]. split; [by left|].
    split; [done|]. split; intros; lia.
  - rewrite seqZ_cons by lia.
    replace (Z.pred (Z.of_nat (S cnt))) with (Z.of_nat cnt) by lia.
    simpl. unfold k_child, bind.
    destruct (decide (d * node + a < n)) as [Hlt|Hge].
    + assert (0 <= d * node + a < Z.of_nat (length l)) as Hc by nia.
      rewrite !list_get_run by done. unfold ret at 1.
      set (acc' := if decide (key l (d * node + a) > key l acc)
                   then d * node + a else acc).
      assert (Hacc' : 0 <= acc' < Z.of_nat (length l)
                      /\ acc' < d * node + Z.succ a
                      /\ key l acc <= key l acc'
                      /\ key l (d * node + a) <= key l acc'
                      /\ (acc' = acc \/ acc' = d * node + a)
                      /\ (acc' <> acc -> key l acc < key l acc')).
      { unfold acc'. case_decide; repeat split; try nia; auto. }
      destruct Hacc' as (Hr & Hb & Hle1 & Hle2 & Hor' & Hstrict').
      destruct (IH (Z.succ a) acc' ltac:(lia) Hr Hb)
        as (m & Hrun & Hor & Hstrict & Hall & Hfirst).
      exists m. split; [done|]. split; [|split; [|split]].
      * destruct Hor as [->|(k & Hk & -> & Hlt')].
        -- destruct Hor' as [->| ->]; [by left|right].
           exists a. split; [lia|done].
        -- right. exists k. split; [lia|done].
      * intros Hne. destruct (decide (m = acc')) as [->|Hne'].
        -- by apply Hstrict'.
        -- specialize (Hstrict Hne'). lia.
      * intros k Hk Hlt'. destruct (decide (k = a)) as [->|Hka].
        -- destruct (decide (m = acc')) as [->|Hne']; [done|].
           specialize (Hstrict Hne'). lia.
        -- apply Hall; [lia|done].
      * intros k Hk Hlt' Hkm. destruct (decide (k = a)) as [->|Hka].
        -- destruct (decide (m = acc')) as [->|Hne'].
           ++ destruct Hor' as [Heq|Heq]; rewrite Heq in Hkm; lia.
           ++ specialize (Hstrict Hne'). lia.
        -- apply Hfirst; [lia|done|done].
    + unfold ret at 1.
      destruct (IH (Z.succ a) acc ltac:(lia) Hacc ltac:(nia))
        as (m & Hrun & Hor & Hstrict & Hall & Hfirst).
      exists m. split; [done|]. split; [|split; [done|split]].
      * destruct Hor as [->|(k & Hk & -> & Hlt')]; [by left|].
        right. exists k. split; [lia|done].
      * intros k Hk Hlt'. apply Hall; [|done].
        destruct (decide (k = a)) as [->|]; lia.
      * intros k Hk Hlt' Hkm. apply Hfirst; [|done|done].
        destruct (decide (k = a)) as [->|]; lia.
Qed.

Lemma find_max_first (d n node : Z) (l : list Z) :
  1 <= d -> 0 <= node < Z.of_nat (length l) -> n <= Z.of_nat (length l) ->
  exists m,
    _find_max d n node l = (Return m, l)
    /\ (m = node \/ exists k, 1 <= k <= d /\ m = k_child d k node /\ m < n)
    /\ (m <> node -> key l node < key l m)
    /\ (forall k, 1 <= k <= d -> k_child d k node < n ->
                  key l (k_child d k node) <= key l m)
    /\ (forall k, 1 <= k <= d -> k_child d k node < n ->
                  k_child d k node < m -> key l (k_child d k node) < key l m).
Proof.
  intros Hd Hnode Hn. unfold _find_max, range, k_child.
  replace (d + 1 - 1) with (Z.of_nat (Z.to_nat d)) by lia.
  destruct (find_max_loop_first d n node l (Z.to_nat d) Hd ltac:(lia) Hn
              1 node ltac:(lia) Hnode ltac:(nia))
    as (m & Hrun & Hor & Hstrict & Hall & Hfirst).
  exists m. split; [exact Hrun|]. split; [|split; [done|split]].
  - destruct Hor as [->|(k & Hk & -> & Hlt)]; [by left|right].
    exists k. split; [lia|done].
  - intros k Hk. apply Hall. lia.
  - intros k Hk. apply Hfirst. lia.
Qed.

(** X3. [_find_max(heap, node)] at a position of the list, with the
    tracked size within the list: it returns without touching the list;
    the result is [node] or one of its children below the size; its key
    is the largest among them; [node] wins ties against its children and
    an earlier child wins ties against a later one. *)
Theorem _find_max_first_largest (d n node : Z) (l : list Z) :
  2 <= d -> 0 <= node < Z.of_nat (length l) -> n <= Z.of_nat (length l) ->
  exists m,
    _find_max d n node l = (Return m, l)
    /\ (m = node \/ exists k, 1 <= k <= d /\ m = k_child d k node /\ m < n)
    /\ key l node <= key l m
    /\ (m <> node -> key l node < key l m)
    /\ (forall k, 1 <= k <= d -> k_child d k node < n ->
                  key l (k_child d k node) <= key l m)
    /\ (forall k, 1 <= k <= d -> k_child d k node < n ->
                  k_child d k node < m -> key l (k_child d k node) < key l m).
Proof.
  intros Hd Hnode Hn.
  destruct (find_max_first d n node l ltac:(lia) Hnode Hn)
    as (m & Hrun & Hor & Hstrict & Hall & Hfirst).
  exists m. split; [done|]. split; [done|]. split; [|done].
  destruct (decide (m = node)) as [->|Hne]; [lia|].
  specialize (Hstrict Hne). lia.
Qed.

Lemma _find_max_first_largest_witness :
  2 <= 3 /\ 0 <= 0 < Z.of_nat (length [5; 9; 9; 1]) /\ 4 <= Z.of_nat (length [5; 9; 9; 1])
  /\ exists m,
       _find_max 3 4 0 [5; 9; 9; 1] = (Return m, [5; 9; 9; 1])
       /\ (m = 0 \/ exists k, 1 <= k <= 3 /\ m = k_child 3 k 0 /\ m < 4)
       /\ key [5; 9; 9; 1] 0 <= key [5; 9; 9; 1] m
       /\ (m <> 0 -> key [5; 9; 9; 1] 0 < key [5; 9; 9; 1] m)
       /\ (forall k, 1 <= k <= 3 -> k_child 3 k 0 < 4 ->
                     key [5; 9; 9; 1] (k_child 3 k 0) <= key [5; 9; 9; 1] m)
       /\ (forall k, 1 <= k <= 3 -> k_child 3 k 0 < 4 -> k_child 3 k 0 < m ->
                     key [5; 9; 9; 1] (k_child 3 k 0) < key [5; 9; 9; 1] m).
Proof.
  split; [lia|]. split; [simpl; lia|]. split; [simpl; lia|].
  apply (_find_max_first_largest 3 4 0 [5; 9; 9; 1]); simpl; lia.
Defined.

(** ** [max_heapify] as a method of its own *)

Lemma max_heap_from_ordered (d n lo : Z) (l : list Z) :
  1 <= d -> 0 <= lo -> n <= Z.of_nat (length l) ->
  max_heap_from d n lo l <-> ordered_above d n lo l.
Proof.
  intros Hd Hlo Hn. split.
  - intros H c Hc Hp.
    destruct (child_of_parent d Hd c) as (k & Hk & Hck).
    pose proof (parent_lt d Hd c ltac:(lia)).
    apply Z.ge_le. apply (H (parent d c) k); try lia.
    + apply key_lookup. lia.
    + rewrite <- Hck. apply key_lookup. lia.
  - intros H i k x y Hi Hk Hc Hx Hy.
    apply lookup_key in Hx, Hy. subst x y. apply Z.le_ge.
    specialize (H (d * i + k) ltac:(nia)).
    rewrite parent_child in H by done. apply H. lia.
Qed.

Lemma lookup_of_key (l l' : list Z) (j : Z) :
  length l' = length l -> 0 <= j -> key l' j = key l j ->
  l' !! Z.to_nat j = l !! Z.to_nat j.
Proof.
  intros Hlen Hj Hkey.
  destruct (decide (j < Z.of_nat (length l))) as [Hlt|Hge].
  - rewrite !key_lookup by lia. by f_equal.
  - rewrite !lookup_ge_None_2 by lia. done.
Qed.

(** X4. [max_heapify(heap, node)] does what its docstring says: if every
    position after [node] dominates its children (the subtrees below
    [node] are heaps) then it returns, every position from [node] on
    dominates its children, the keys are rearranged, and the positions
    before [node] and from the tracked size on keep their keys. *)
Theorem max_heapify_restores (d n node : Z) (l : list Z) :
  2 <= d -> 0 <= node < n -> n <= Z.of_nat (length l) ->
  max_heap_from d n (node + 1) l ->
  exists l',
    max_heapify (heapify_fuel l) d n node l = (Return tt, l')
    /\ l' ≡ₚ l
    /\ (forall j, 0 <= j -> j < node \/ n <= j ->
                  l' !! Z.to_nat j = l !! Z.to_nat j)
    /\ max_heap_from d n node l'.
Proof.
  intros Hd Hnode Hn Hfrom.
  apply max_heap_from_ordered in Hfrom; [|lia..].
  destruct (max_heapify_spec d n ltac:(lia) node (heapify_fuel l) node l)
    as (l' & Hrun & Hperm & Hlen & Hframe & _ & Hord);
    [done|done|unfold heapify_fuel; lia| | |].
  - intros c Hc Hlo Hne. apply Hfrom; [done|lia].
  - intros Hpos Hlo. pose proof (parent_lt d ltac:(lia) node Hpos). lia.
  - exists l'. split; [done|]. split; [done|]. split.
    + intros j Hj Hout. apply lookup_of_key; [done|done|by apply Hframe].
    + apply max_heap_from_ordered; [lia|lia|lia|done].
Qed.

Lemma max_heapify_restores_witness :
  2 <= 2 /\ 0 <= 1 < 6 /\ 6 <= Z.of_nat (length [9; 1; 7; 3; 4; 2])
  /\ max_heap_from 2 6 (1 + 1) [9; 1; 7; 3; 4; 2]
  /\ exists l',
       max_heapify (heapify_fuel [9; 1; 7; 3; 4; 2]) 2 6 1 [9; 1; 7; 3; 4; 2]
       = (Return tt, l')
       /\ l' ≡ₚ [9; 1; 7; 3; 4; 2]
       /\ max_heap_from 2 6 1 l'.
Proof.
  assert (H1 : 0 <= 1 < 6) by lia.
  assert (H2 : 6 <= Z.of_nat (length [9; 1; 7; 3; 4; 2])) by (simpl; lia).
  assert (H3 : max_heap_from 2 6 (1 + 1) [9; 1; 7; 3; 4; 2]).
  { intros i k x y Hi Hk Hc Hx Hy.
    assert (i = 2 /\ k = 1) as [-> ->] by lia.
    simpl in Hx, Hy. injection Hx as <-. injection Hy as <-. lia. }
  split; [lia|]. split; [exact H1|]. split; [exact H2|]. split; [exact H3|].
  destruct (max_heapify_restores 2 6 1 [9; 1; 7; 3; 4; 2] ltac:(lia) H1 H2 H3)
    as (l' & Hrun & Hperm & _ & Hfrom).
  exists l'. split; [exact Hrun|]. split; [exact Hperm|exact Hfrom].
Defined.

Lemma max_heapify_noop (d n node : Z) (l : list Z) (fuel : nat) :
  1 <= d -> 0 <= node -> n <= Z.of_nat (length l) ->
  ordered_above d n 0 l ->
  max_heapify (S fuel) d n node l = (Return tt, l).
Proof.
  intros Hd Hnode Hn Hord. simpl. unfold bind.
  destruct (decide (node < n)) as [Hlt|Hge].
  - destruct (find_max_first d n node l Hd ltac:(lia) Hn)
      as (m & -> & Hor & Hstrict & _).
    destruct (decide (m <> node)) as [Hne|Heq]; [|done].
    exfalso. specialize (Hstrict Hne).
    destruct Hor as [->|(k & Hk & -> & Hmn)]; [done|].
    unfold k_child in *.
    specialize (Hord (d * node + k) ltac:(nia)).
    rewrite parent_child in Hord by done. specialize (Hord ltac:(lia)). lia.
  - rewrite find_max_leaf by (try done; nia).
    by rewrite decide_False by (intros ?; done).
Qed.

(** X5. On a heap that satisfies the max-heap property, with its size
    the length of the list, [max_heapify] at any position [node >= 0]
    returns and changes nothing. *)
Theorem max_heapify_valid_heap_unchanged (node : Z) (self : DAryHeap) :
  consistent self -> heap_ok self -> 0 <= node ->
  self_max_heapify node self = (Return tt, self).
Proof.
  intros [Hsize Hd] Hok Hnode. rewrite self_max_heapify_unfold.
  apply max_heap_property_ordered in Hok; [|lia|lia].
  unfold heapify_fuel. rewrite Nat.add_comm.
  change (2 + 2 * length (_heap self))%nat
    with (S (S (2 * length (_heap self)))).
  rewrite max_heapify_noop; [|lia|done|lia|done].
  by rewrite set_heap_id.
Qed.

Lemma max_heapify_valid_heap_unchanged_witness :
  consistent (mkDAryHeap 3 [9; 4; 7; 3; 1; 2] 6)
  /\ heap_ok (mkDAryHeap 3 [9; 4; 7; 3; 1; 2] 6)
  /\ 0 <= 0
  /\ self_max_heapify 0 (mkDAryHeap 3 [9; 4; 7; 3; 1; 2] 6)
     = (Return tt, mkDAryHeap 3 [9; 4; 7; 3; 1; 2] 6).
Proof.
  assert (Hc : consistent (mkDAryHeap 3 [9; 4; 7; 3; 1; 2] 6))
    by (split; [reflexivity|simpl; lia]).
  assert (Hok : heap_ok (mkDAryHeap 3 [9; 4; 7; 3; 1; 2] 6))
    by (apply is_max_heap_sound; vm_compute; reflexivity).
  split; [exact Hc|]. split; [exact Hok|]. split; [lia|].
  apply (max_heapify_valid_heap_unchanged 0 _ Hc Hok). lia.
Defined.

(** ** [build_max_heap] beyond the case size = len(data) *)

Lemma swap_perm_any (a b : Z) (l : list Z) r l' :
  _swap a b l = (r, l') -> l' ≡ₚ l.
Proof.
  destruct (decide (- Z.of_nat (length l) <= a < Z.of_nat (length l)
                    /\ - Z.of_nat (length l) <= b < Z.of_nat (length l)))
    as [[Ha Hb]|Hout].
  - rewrite swap_run_wrap by done. intros [= _ <-].
    apply swapped_Permutation; by apply wrap_range.
  - rewrite swap_raise by done. by intros [= _ <-].
Qed.

Lemma max_heapify_perm_any (fuel : nat) (d n : Z) :
  forall node l r l', max_heapify fuel d n node l = (r, l') -> l' ≡ₚ l.
Proof.
  induction fuel as [|fuel IH]; intros node l r l'; simpl.
  - by intros [= _ <-].
  - unfold bind.
    destruct (_find_max d n node l) as [[m|e|] l1] eqn:Hfind;
      apply find_max_state in Hfind; subst l1; try by intros [= _ <-].
    destruct (decide (m <> node)); [|by intros [= _ <-]].
    destruct (_swap node m l) as [[u|e|] l1] eqn:Hswap;
      apply swap_perm_any in Hswap; try (by intros [= _ <-]).
    intros Hrec. apply IH in Hrec. by rewrite Hrec.
Qed.

Lemma build_max_heap_perm_any (data : list Z) (self : DAryHeap) r self' :
  build_max_heap data self = (r, self') -> _heap self' ≡ₚ data.
Proof.
  unfold build_max_heap, bind, modify, get. heap_simpl. intros Hrun.
  apply (for_invariant (fun s => _heap s ≡ₚ data)) in Hrun; [done| |done].
  intros i s r1 s1 Hbody Hs. rewrite self_max_heapify_unfold in Hbody.
  destruct (max_heapify _ _ _ _ _) as [r2 l2] eqn:Hdown.
  apply max_heapify_perm_any in Hdown. injection Hbody as _ <-.
  heap_simpl. by rewrite Hdown.
Qed.

(** X6. [build_max_heap(data)] never loses or invents a key: however the
    call ends, also when it raises [IndexError] half way because the
    tracked size exceeds the list, the list held by the heap is a
    rearrangement of [data]. *)
Theorem build_max_heap_keeps_keys (data : list Z) (self : DAryHeap) :
  _heap (snd (build_max_heap data self)) ≡ₚ data.
Proof.
  destruct (build_max_heap data self) as [r self'] eqn:Hrun.
  by apply build_max_heap_perm_any in Hrun.
Qed.

Lemma drop_of_key (l l' : list Z) (n : Z) :
  length l' = length l -> 0 <= n ->
  (forall j, n <= j -> key l' j = key l j) ->
  drop (Z.to_nat n) l' = drop (Z.to_nat n) l.
Proof.
  intros Hlen Hn Hkey. apply list_eq. intros i. rewrite !lookup_drop.
  replace (Z.to_nat n + i)%nat with (Z.to_nat (n + Z.of_nat i)) by lia.
  apply lookup_of_key; [done|lia|]. apply Hkey. lia.
Qed.

(** X7. When the tracked size is at most the length of [data] (and
    [d >= 2]), [build_max_heap] returns and makes a heap of the first
    [size] positions only: the max-heap property holds over them, they
    hold the keys [data] had there, and the positions from [size] on are
    as in [data]. *)
Theorem build_max_heap_prefix (data : list Z) (self : DAryHeap) :
  2 <= _children self -> 0 <= _heap_size self <= Z.of_nat (length data) ->
  exists self',
    build_max_heap data self = (Return tt, self')
    /\ _heap_size self' = _heap_size self
    /\ heap_ok self'
    /\ take (Z.to_nat (_heap_size self)) (_heap self')
       ≡ₚ take (Z.to_nat (_heap_size self)) data
    /\ drop (Z.to_nat (_heap_size self)) (_heap self')
       = drop (Z.to_nat (_heap_size self)) data.
Proof.
  intros Hd Hsize.
  destruct (build_max_heap_run data self Hd Hsize)
    as (l' & Hrun & Hperm & Hlen & Hframe & Hord).
  exists (set_heap l' self). split; [done|]. unfold heap_ok. heap_simpl.
  split; [done|].
  split; [apply max_heap_property_ordered; [lia|lia|done]|].
  assert (Hdrop : drop (Z.to_nat (_heap_size self)) l'
                  = drop (Z.to_nat (_heap_size self)) data).
  { apply drop_of_key; [done|lia|done]. }
  split; [|done].
  apply (Permutation_app_inv_r (drop (Z.to_nat (_heap_size self)) data)).
  rewrite <- Hdrop at 1. by rewrite !take_drop.
Qed.

Lemma build_max_heap_prefix_witness :
  2 <= _children (mkDAryHeap 2 [] 3)
  /\ 0 <= _heap_size (mkDAryHeap 2 [] 3) <= Z.of_nat (length [1; 2; 3; 9; 8])
  /\ exists self',
       build_max_heap [1; 2; 3; 9; 8] (mkDAryHeap 2 [] 3) = (Return tt, self')
       /\ _heap_size self' = _heap_size (mkDAryHeap 2 [] 3)
       /\ heap_ok self'
       /\ take (Z.to_nat (_heap_size (mkDAryHeap 2 [] 3))) (_heap self')
          ≡ₚ take (Z.to_nat (_heap_size (mkDAryHeap 2 [] 3))) [1; 2; 3; 9; 8]
       /\ drop (Z.to_nat (_heap_size (mkDAryHeap 2 [] 3))) (_heap self')
          = drop (Z.to_nat (_heap_size (mkDAryHeap 2 [] 3))) [1; 2; 3; 9; 8].
Proof.
  split; [simpl; lia|]. split; [simpl; lia|].
  apply (build_max_heap_prefix [1; 2; 3; 9; 8] (mkDAryHeap 2 [] 3)); simpl; lia.
Defined.

(** ** The root of a heap *)

Lemma heap_root_max (d : Z) (l : list Z) :
  1 <= d -> (0 < length l)%nat ->
  ordered_above d (Z.of_nat (length l)) 0 l ->
  l !! 0%nat = Some (key l 0)
  /\ forall x, x ∈ l -> x <= key l 0.
Proof.
  intros Hd Hlen Hord. split.
  - apply (key_lookup l 0). lia.
  - intros x Hx. apply list_elem_of_lookup in Hx as [i Hi].
    pose proof (lookup_lt_Some _ _ _ Hi) as Hlt.
    replace i with (Z.to_nat (Z.of_nat i)) in Hi by lia.
    apply lookup_key in Hi. subst x.
    apply (root_is_max d (Z.of_nat (length l))); [done|done|lia].
Qed.

Lemma elem_of_insert_inv (l : list Z) (i : nat) (k x : Z) :
  x ∈ <[i := k]> l -> x = k \/ x ∈ l.
Proof.
  intros Hx. apply list_elem_of_lookup in Hx as [j Hj].
  apply list_lookup_insert_Some in Hj as [(-> & -> & _)|[_ Hj]]; [by left|].
  right. by apply list_elem_of_lookup_2 in Hj.
Qed.

(** X8. The constructor followed by [build_max_heap]: with fewer than
    two children the constructor raises [IllegalChildrenError]; otherwise
    a heap constructed with the size [len(data)] and then built from
    [data] holds a rearrangement of [data] that satisfies the max-heap
    property, with its size the length of the list. *)
Theorem init_then_build (children : Z) (data : list Z) :
  (children < 2 ->
   __init__ (Z.of_nat (length data)) children = inl IllegalChildrenError)
  /\ (2 <= children ->
      exists self self',
        __init__ (Z.of_nat (length data)) children = inr self
        /\ build_max_heap data self = (Return tt, self')
        /\ heap_ok self'
        /\ consistent self'
        /\ _children self' = children
        /\ _heap self' ≡ₚ data).
Proof.
  unfold __init__. split; intros Hc.
  - by rewrite decide_True.
  - rewrite decide_False by lia.
    destruct (build_max_heap_run data
                (mkDAryHeap children [] (Z.of_nat (length data))))
      as (l' & Hrun & Hperm & Hlen & _ & Hord); heap_simpl; [done|lia|].
    revert Hord. heap_simpl. intros Hord.
    exists (mkDAryHeap children [] (Z.of_nat (length data))).
    exists (set_heap l' (mkDAryHeap children [] (Z.of_nat (length data)))).
    split; [reflexivity|].
    split; [exact Hrun|]. unfold heap_ok, consistent. heap_simpl.
    split; [apply max_heap_property_ordered; [lia|lia|done]|].
    split; [split; [lia|done]|]. done.
Qed.

Lemma init_then_build_witness :
  (1 < 2 ->
   __init__ (Z.of_nat (length [4; 1; 7])) 1 = inl IllegalChildrenError)
  /\ 2 <= 4
  /\ exists self self',
       __init__ (Z.of_nat (length [4; 1; 7; 3; 9; 2])) 4 = inr self
       /\ build_max_heap [4; 1; 7; 3; 9; 2] self = (Return tt, self')
       /\ heap_ok self'
       /\ consistent self'
       /\ _children self' = 4
       /\ _heap self' ≡ₚ [4; 1; 7; 3; 9; 2].
Proof.
  split; [exact (proj1 (init_then_build 1 [4; 1; 7]))|].
  split; [lia|].
  apply (proj2 (init_then_build 4 [4; 1; 7; 3; 9; 2])). lia.
Defined.

(** X9. After [max_heap_insert(key)] on a heap that satisfies the
    max-heap property (size the length of the list), the root is the
    larger of the old root and [key], or [key] if the heap was empty. *)
Theorem max_heap_insert_root (k : Z) (self : DAryHeap) :
  consistent self -> heap_ok self ->
  exists self',
    max_heap_insert k self = (Return tt, self')
    /\ _heap self' !! 0%nat
       = Some (match _heap self with [] => k | x :: _ => Z.max x k end).
Proof.
  intros Hcons Hok.
  destruct (max_heap_insert_run k self Hcons) as (l' & Hrun & Hperm & Hlen & Hord).
  eexists. split; [exact Hrun|]. heap_simpl.
  destruct Hcons as [Hsize Hd].
  specialize (Hord Hok).
  apply max_heap_property_ordered in Hord; [|lia|lia].
  rewrite <- Hlen in Hord.
  destruct (heap_root_max (_children self) l' ltac:(lia) ltac:(lia) Hord)
    as [Hroot Hmax].
  rewrite Hroot. f_equal.
  assert (Hk : k <= key l' 0).
  { apply Hmax. rewrite Hperm. apply elem_of_app. right. by left. }
  assert (Hin : key l' 0 ∈ _heap self ++ [k]).
  { rewrite <- Hperm. by apply list_elem_of_lookup_2 in Hroot. }
  assert (Hmax0 : (0 < length (_heap self))%nat ->
                  forall y, y ∈ _heap self -> y <= key (_heap self) 0).
  { intros Hpos. unfold heap_ok in Hok.
    apply max_heap_property_ordered in Hok; [|lia|lia].
    rewrite Hsize in Hok.
    apply (heap_root_max (_children self) (_heap self)); [lia|done|done]. }
  clear Hok Hord Hrun Hsize Hlen.
  destruct (_heap self) as [|x t].
  - apply elem_of_app in Hin as [Hin|Hin]; [by apply elem_of_nil in Hin|].
    by apply list_elem_of_singleton in Hin.
  - assert (Hx : x <= key l' 0).
    { apply Hmax. rewrite Hperm. apply elem_of_app. left. by left. }
    specialize (Hmax0 ltac:(simpl; lia)).
    change (key (x :: t) 0) with x in Hmax0.
    apply elem_of_app in Hin as [Hin|Hin].
    + specialize (Hmax0 _ Hin). lia.
    + apply list_elem_of_singleton in Hin. lia.
Qed.

Lemma max_heap_insert_root_witness :
  consistent (mkDAryHeap 2 [7; 4; 1; 3] 4)
  /\ heap_ok (mkDAryHeap 2 [7; 4; 1; 3] 4)
  /\ exists self',
       max_heap_insert 9 (mkDAryHeap 2 [7; 4; 1; 3] 4) = (Return tt, self')
       /\ _heap self' !! 0%nat = Some (Z.max 7 9).
Proof.
  assert (Hc : consistent (mkDAryHeap 2 [7; 4; 1; 3] 4))
    by (split; [reflexivity|simpl; lia]).
  assert (Hok : heap_ok (mkDAryHeap 2 [7; 4; 1; 3] 4))
    by (apply is_max_heap_sound; vm_compute; reflexivity).
  split; [exact Hc|]. split; [exact Hok|].
  exact (max_heap_insert_root 9 (mkDAryHeap 2 [7; 4; 1; 3] 4) Hc Hok).
Defined.

(** X10. [increase_key] to a key greater than every stored key, on a
    heap that satisfies the max-heap property (size the length of the
    list) and at a position in [0, size), brings that key to the root. *)
Theorem increase_key_to_root (index k : Z) (self : DAryHeap) :
  consistent self -> heap_ok self -> 0 <= index < _heap_size self ->
  (forall x, x ∈ _heap self -> x < k) ->
  exists self',
    increase_key index k self = (Return tt, self')
    /\ _heap self' !! 0%nat = Some k.
Proof.
  intros Hcons Hok Hindex Hall.
  assert (Hlt : key (_heap self) index < k).
  { apply Hall. apply (list_elem_of_lookup_2 _ (Z.to_nat index)).
    apply key_lookup. destruct Hcons. lia. }
  destruct (increase_key_run index k self Hcons Hindex Hlt)
    as (l' & Hrun & Hperm & Hlen & Hord).
  eexists. split; [exact Hrun|]. heap_simpl.
  destruct Hcons as [Hsize Hd]. specialize (Hord Hok).
  apply max_heap_property_ordered in Hord; [|lia|lia].
  rewrite Hsize, <- Hlen in Hord.
  destruct (heap_root_max (_children self) l' ltac:(lia) ltac:(lia) Hord)
    as [Hroot Hmax].
  rewrite Hroot. f_equal.
  assert (Hk : k <= key l' 0).
  { apply Hmax. rewrite Hperm.
    apply (list_elem_of_lookup_2 _ (Z.to_nat index)).
    apply list_lookup_insert_eq. lia. }
  assert (Hin : key l' 0 ∈ <[Z.to_nat index := k]> (_heap self)).
  { rewrite <- Hperm. by apply list_elem_of_lookup_2 in Hroot. }
  apply elem_of_insert_inv in Hin as [Hin|Hin]; [done|].
  specialize (Hall _ Hin). lia.
Qed.

Lemma increase_key_to_root_witness :
  consistent (mkDAryHeap 3 [5; 2; 3; 4; 1] 5)
  /\ heap_ok (mkDAryHeap 3 [5; 2; 3; 4; 1] 5)
  /\ 0 <= 4 < _heap_size (mkDAryHeap 3 [5; 2; 3; 4; 1] 5)
  /\ (forall x, x ∈ _heap (mkDAryHeap 3 [5; 2; 3; 4; 1] 5) -> x < 10)
  /\ exists self',
       increase_key 4 10 (mkDAryHeap 3 [5; 2; 3; 4; 1] 5) = (Return tt, self')
       /\ _heap self' !! 0%nat = Some 10.
Proof.
  assert (Hc : consistent (mkDAryHeap 3 [5; 2; 3; 4; 1] 5))
    by (split; [reflexivity|simpl; lia]).
  assert (Hok : heap_ok (mkDAryHeap 3 [5; 2; 3; 4; 1] 5))
    by (apply is_max_heap_sound; vm_compute; reflexivity).
  assert (Hi : 0 <= 4 < _heap_size (mkDAryHeap 3 [5; 2; 3; 4; 1] 5))
    by (simpl; lia).
  assert (Hall : forall x, x ∈ _heap (mkDAryHeap 3 [5; 2; 3; 4; 1] 5) -> x < 10).
  { simpl. intros x Hx. repeat (apply elem_of_cons in Hx as [->|Hx]; [lia|]).
    by apply elem_of_nil in Hx. }
  split; [exact Hc|]. split; [exact Hok|]. split; [exact Hi|].
  split; [exact Hall|].
  exact (increase_key_to_root 4 10 _ Hc Hok Hi Hall).
Defined.

(** ** Draining a heap *)

Lemma extract_all_run (n : nat) :
  forall self : DAryHeap,
    consistent self -> heap_ok self -> _heap_size self = Z.of_nat n ->
    exists vs,
      extract_all n self
      = (Return vs, {| _children := _children self; _heap := [];
                       _heap_size := 0 |})
      /\ vs ≡ₚ _heap self
      /\ StronglySorted Z.ge vs.
Proof.
  induction n as [|n IH]; intros self Hcons Hok Hsize.
  - exists []. destruct self as [d l s]. destruct Hcons as [Hlen Hd].
    simpl in *. destruct l as [|x t]; [|simpl in Hlen; lia].
    replace s with 0 by lia.
    split; [done|]. split; [done|constructor].
  - simpl. unfold bind at 1.
    destruct (extract_max_run self Hcons ltac:(lia))
      as (l' & -> & Hperm & Hlen & Hord).
    pose proof Hcons as [Hsz Hd].
    set (self1 := {| _children := _children self; _heap := l';
                     _heap_size := _heap_size self - 1 |}).
    destruct (IH self1) as (vs & Hrun & Hperm' & Hsorted).
    { split; [simpl; lia|done]. }
    { by apply Hord. }
    { simpl. lia. }
    unfold bind. rewrite Hrun. unfold ret. simpl.
    exists (key (_heap self) 0 :: vs). split; [done|].
    unfold heap_ok in Hok.
    apply max_heap_property_ordered in Hok; [|lia|lia]. rewrite Hsz in Hok.
    destruct (heap_root_max (_children self) (_heap self) ltac:(lia)
                ltac:(lia) Hok) as [_ Hmax].
    simpl in Hperm'. revert Hperm Hmax.
    generalize (key (_heap self) 0). intros v Hperm Hmax.
    split; [by rewrite Hperm, Hperm'|].
    constructor; [done|].
    apply Forall_forall. intros x Hx. apply Z.le_ge. apply Hmax.
    rewrite Hperm. right. by rewrite <- Hperm'.
Qed.

(** X11. Calling [extract_max] as many times as the heap has keys, on a
    heap that satisfies the max-heap property (size the length of the
    list), returns the stored keys in non-increasing order, each as often
    as it was stored, and leaves the heap empty, so that one more call
    raises [HeapUnderflowError]. *)
Theorem extract_all_descending (self : DAryHeap) :
  consistent self -> heap_ok self ->
  exists vs final,
    extract_all (length (_heap self)) self = (Return vs, final)
    /\ vs ≡ₚ _heap self
    /\ Sorted Z.ge vs
    /\ _heap final = [] /\ _heap_size final = 0
    /\ extract_max final = (Raise HeapUnderflowError, final).
Proof.
  intros Hcons Hok.
  destruct (extract_all_run (length (_heap self)) self Hcons Hok)
    as (vs & Hrun & Hperm & Hsorted); [by destruct Hcons|].
  eexists _, _. split; [exact Hrun|]. split; [done|].
  split; [by apply StronglySorted_Sorted|]. done.
Qed.

Lemma extract_all_descending_witness :
  consistent (mkDAryHeap 2 [9; 7; 4; 1; 3; 2] 6)
  /\ heap_ok (mkDAryHeap 2 [9; 7; 4; 1; 3; 2] 6)
  /\ exists vs final,
       extract_all (length (_heap (mkDAryHeap 2 [9; 7; 4; 1; 3; 2] 6)))
                   (mkDAryHeap 2 [9; 7; 4; 1; 3; 2] 6) = (Return vs, final)
       /\ vs ≡ₚ _heap (mkDAryHeap 2 [9; 7; 4; 1; 3; 2] 6)
       /\ Sorted Z.ge vs
       /\ _heap final = [] /\ _heap_size final = 0
       /\ extract_max final = (Raise HeapUnderflowError, final).
Proof.
  assert (Hc : consistent (mkDAryHeap 2 [9; 7; 4; 1; 3; 2] 6))
    by (split; [reflexivity|simpl; lia]).
  assert (Hok : heap_ok (mkDAryHeap 2 [9; 7; 4; 1; 3; 2] 6))
    by (apply is_max_heap_sound; vm_compute; reflexivity).
  split; [exact Hc|]. split; [exact Hok|].
  exact (extract_all_descending _ Hc Hok).
Defined.

Example run_extract_all :
  extract_all 6 (mkDAryHeap 2 [9; 7; 4; 1; 3; 2] 6)
  = (Return [9; 7; 4; 3; 2; 1], mkDAryHeap 2 [] 0).
Proof. vm_compute. reflexivity. Qed.

Lemma inserts_run (ks : list Z) :
  forall self : DAryHeap,
    consistent self -> heap_ok self ->
    exists self',
      for_ ks max_heap_insert self = (Return tt, self')
      /\ consistent self' /\ heap_ok self'
      /\ _heap self' ≡ₚ _heap self ++ ks.
Proof.
  induction ks as [|k ks IH]; intros self Hcons Hok.
  - exists self. split; [done|]. by rewrite app_nil_r.
  - simpl. unfold bind.
    destruct (max_heap_insert_run k self Hcons)
      as (l' & -> & Hperm & Hlen & Hord).
    destruct Hcons as [Hsize Hd].
    destruct (IH {| _children := _children self; _heap := l';
                    _heap_size := _heap_size self + 1 |})
      as (self' & Hrun & Hcons' & Hok' & Hperm').
    { split; [simpl; lia|done]. }
    { by apply Hord. }
    exists self'. split; [done|]. split; [done|]. split; [done|].
    rewrite Hperm'. simpl. rewrite Hperm. by rewrite <- app_assoc.
Qed.

Lemma descending_unique (l1 l2 : list Z) :
  StronglySorted Z.ge l1 -> StronglySorted Z.ge l2 -> l1 ≡ₚ l2 -> l1 = l2.
Proof.
  apply StronglySorted_unique_strong. intros x1 x2 _ _ H1 H2. lia.
Qed.

(** X12. Inserting the keys of a list one by one into an empty heap and
    then draining it gives the same sequence as building a heap from the
    list at once and draining it: the keys of the list in non-increasing
    order, whatever the branching factor [d >= 2]. *)
Theorem inserts_or_build_then_drain (d : Z) (ks : list Z) :
  2 <= d ->
  exists vs s1 s2,
    (let* _ := for_ ks max_heap_insert in extract_all (length ks))
      (mkDAryHeap d [] 0) = (Return vs, s1)
    /\ (let* _ := build_max_heap ks in extract_all (length ks))
         (mkDAryHeap d [] (Z.of_nat (length ks))) = (Return vs, s2)
    /\ vs ≡ₚ ks
    /\ Sorted Z.ge vs.
Proof.
  intros Hd.
  destruct (inserts_run ks (mkDAryHeap d [] 0)) as (h1 & Hrun1 & Hc1 & Hok1 & Hp1).
  { split; [done|simpl; lia]. }
  { intros i k x y Hi. simpl in Hi. lia. }
  simpl in Hp1.
  destruct (build_max_heap_run ks (mkDAryHeap d [] (Z.of_nat (length ks))))
    as (l2 & Hrun2 & Hp2 & Hlen2 & _ & Hord2); heap_simpl; [done|lia|].
  revert Hord2. heap_simpl. intros Hord2.
  set (h2 := set_heap l2 (mkDAryHeap d [] (Z.of_nat (length ks)))) in *.
  assert (Hc2 : consistent h2) by (split; [simpl; lia|done]).
  assert (Hok2 : heap_ok h2).
  { unfold heap_ok. simpl. apply max_heap_property_ordered; [lia|lia|done]. }
  destruct (extract_all_run (length ks) h1 Hc1 Hok1)
    as (vs1 & Hd1 & Hperm1 & Hs1).
  { destruct Hc1 as [-> _]. by rewrite (Permutation_length Hp1). }
  destruct (extract_all_run (length ks) h2 Hc2 Hok2)
    as (vs2 & Hd2 & Hperm2 & Hs2); [done|].
  assert (vs2 = vs1) as ->.
  { apply descending_unique; [done|done|].
    rewrite Hperm1, Hperm2, Hp1. done. }
  eexists vs1, _, _. unfold bind. rewrite Hrun1, Hrun2.
  split; [exact Hd1|]. split; [exact Hd2|].
  split; [by rewrite Hperm1, Hp1|by apply StronglySorted_Sorted].
Qed.

Lemma inserts_or_build_then_drain_witness :
  2 <= 3
  /\ exists vs s1 s2,
       (let* _ := for_ [4; 1; 7; 3; 9; 2] max_heap_insert in
        extract_all (length [4; 1; 7; 3; 9; 2]))
         (mkDAryHeap 3 [] 0) = (Return vs, s1)
       /\ (let* _ := build_max_heap [4; 1; 7; 3; 9; 2] in
           extract_all (length [4; 1; 7; 3; 9; 2]))
            (mkDAryHeap 3 [] (Z.of_nat (length [4; 1; 7; 3; 9; 2])))
          = (Return vs, s2)
       /\ vs ≡ₚ [4; 1; 7; 3; 9; 2]
       /\ Sorted Z.ge vs.
Proof.
  split; [lia|].
  apply (inserts_or_build_then_drain 3 [4; 1; 7; 3; 9; 2]). lia.
Defined.

(** ** [delete_key] at the two ends *)

Lemma getitem_first (l : list Z) (i v : Z) :
  0 <= i -> getitem l i = Some v -> getitem l 0 = Some (key l 0).
Proof.
  intros Hi Hget. apply getitem_Some_range in Hget.
  apply getitem_nonneg. lia.
Qed.

Lemma delete_root_run (self : DAryHeap) :
  1 <= _heap_size self ->
  delete_key 0 self
  = (match fst (extract_max self) with
     | Return _ => Return tt
     | Raise e => Raise e
     | OutOfFuel => OutOfFuel
     end, snd (extract_max self)).
Proof.
  intros Hsize. unfold delete_key, extract_max.
  cbv [bind get]. rewrite decide_False by lia. rewrite decide_False by lia.
  cbv [on_heap list_get].
  destruct (getitem (_heap self) (_heap_size self - 1)) as [last|] eqn:Hlast.
  - rewrite (getitem_first (_heap self) (_heap_size self - 1) last
               ltac:(lia) Hlast).
    heap_simpl. rewrite Hlast. rewrite !set_heap_id.
    destruct (list_set 0 last (_heap self)) as [[u1|e1|] l1]; [|done..].
    heap_simpl.
    destruct (list_pop l1) as [[u2|e2|] l2]; [|done..].
    unfold modify. heap_simpl. unfold sift_fuel. simpl delete_loop.
    unfold ret. heap_simpl.
    change (set_heap l2 (set_heap_size (_heap_size self - 1)
                                       (set_heap l2 (set_heap l1 self))))
      with (set_heap_size (_heap_size self - 1) (set_heap l2 (set_heap l1 self))).
    destruct (self_max_heapify 0 _) as [[u3|e3|] s3]; [by destruct u3|done..].
  - rewrite !set_heap_id.
    destruct (getitem (_heap self) 0) as [x|]; heap_simpl;
      rewrite ?Hlast, ?set_heap_id; done.
Qed.

(** X13. On a heap of size at least 1, [delete_key(0)] does what
    [extract_max()] does but for the returned key: the two calls end in
    the same state, and one returns or raises exactly when the other
    does, with the same exception. *)
Theorem delete_root_is_extract_max (self : DAryHeap) :
  1 <= _heap_size self ->
  snd (delete_key 0 self) = snd (extract_max self)
  /\ fst (delete_key 0 self)
     = match fst (extract_max self) with
       | Return _ => Return tt
       | Raise e => Raise e
       | OutOfFuel => OutOfFuel
       end.
Proof. intros Hsize. by rewrite delete_root_run. Qed.

Lemma delete_root_is_extract_max_witness :
  1 <= _heap_size (mkDAryHeap 3 [9; 4; 7; 3; 1; 2] 6)
  /\ snd (delete_key 0 (mkDAryHeap 3 [9; 4; 7; 3; 1; 2] 6))
     = snd (extract_max (mkDAryHeap 3 [9; 4; 7; 3; 1; 2] 6))
  /\ fst (delete_key 0 (mkDAryHeap 3 [9; 4; 7; 3; 1; 2] 6))
     = match fst (extract_max (mkDAryHeap 3 [9; 4; 7; 3; 1; 2] 6)) with
       | Return _ => Return tt
       | Raise e => Raise e
       | OutOfFuel => OutOfFuel
       end.
Proof.
  split; [simpl; lia|].
  apply (delete_root_is_extract_max (mkDAryHeap 3 [9; 4; 7; 3; 1; 2] 6)).
  simpl. lia.
Defined.

Lemma delete_loop_stop (fuel : nat) (d n i : Z) (l : list Z) :
  ~ 1 <= i < n -> delete_loop (S fuel) d n i l = (Return i, l).
Proof. intros H. simpl. by rewrite decide_False. Qed.

Lemma max_heapify_leaf (fuel : nat) (d n node : Z) (l : list Z) :
  1 <= d -> 0 <= node -> n <= d * node + 1 ->
  max_heapify (S fuel) d n node l = (Return tt, l).
Proof.
  intros Hd Hnode Hleaf. simpl. unfold bind.
  rewrite find_max_leaf by done. by rewrite decide_False by (intros ?; done).
Qed.

(** X14. Deleting the last position of a heap whose size is the length
    of the list only drops the last key: the call returns, the list is
    the old one without its last item, and no other key moves. *)
Theorem delete_key_last (self : DAryHeap) :
  consistent self -> 1 <= _heap_size self ->
  delete_key (_heap_size self - 1) self
  = (Return tt,
     {| _children := _children self;
        _heap := take (pred (length (_heap self))) (_heap self);
        _heap_size := _heap_size self - 1 |}).
Proof.
  destruct self as [d l n]. unfold consistent. simpl.
  intros [-> Hd] Hn.
  unfold delete_key, bind, get, modify. heap_simpl.
  rewrite decide_False by lia.
  unfold on_heap at 1. heap_simpl. rewrite list_get_run by lia.
  unfold on_heap at 1. heap_simpl. rewrite list_set_run by lia.
  unfold on_heap at 1. heap_simpl.
  rewrite list_pop_run by (rewrite length_insert; lia).
  rewrite length_insert. rewrite take_insert_ge by lia. heap_simpl.
  unfold on_heap at 1. heap_simpl. unfold sift_fuel.
  rewrite delete_loop_stop by lia.
  rewrite self_max_heapify_unfold. heap_simpl.
  unfold heapify_fuel. rewrite Nat.add_comm.
  change (2 + 2 * length (take (pred (length l)) l))%nat
    with (S (S (2 * length (take (pred (length l)) l)))).
  rewrite max_heapify_leaf by nia. done.
Qed.

Lemma delete_key_last_witness :
  consistent (mkDAryHeap 3 [9; 4; 7; 3; 1; 2] 6)
  /\ 1 <= _heap_size (mkDAryHeap 3 [9; 4; 7; 3; 1; 2] 6)
  /\ delete_key (_heap_size (mkDAryHeap 3 [9; 4; 7; 3; 1; 2] 6) - 1)
                (mkDAryHeap 3 [9; 4; 7; 3; 1; 2] 6)
     = (Return tt,
        {| _children := 3;
           _heap := take (pred (length [9; 4; 7; 3; 1; 2])) [9; 4; 7; 3; 1; 2];
           _heap_size := 6 - 1 |}).
Proof.
  assert (Hc : consistent (mkDAryHeap 3 [9; 4; 7; 3; 1; 2] 6))
    by (split; [reflexivity|simpl; lia]).
  split; [exact Hc|]. split; [simpl; lia|].
  apply (delete_key_last (mkDAryHeap 3 [9; 4; 7; 3; 1; 2] 6) Hc). simpl. lia.
Defined.

(** ** [increase_key] with a negative index *)

(** X15. [increase_key] does not reject a negative index that Python
    accepts: with [index] in [-len, 0) and a key greater than the one at
    that position, the call returns and the position [len + index] holds
    the new key, but nothing is sifted up (the loop runs only while
    [index > 0]); when the new key exceeds the key of that position's
    parent, the max-heap property no longer holds. *)
Theorem increase_key_negative_index (index k : Z) (self : DAryHeap) :
  consistent self ->
  - Z.of_nat (length (_heap self)) <= index < 0 ->
  key (_heap self) (Z.of_nat (length (_heap self)) + index) < k ->
  increase_key index k self
  = (Return tt,
     set_heap (<[Z.to_nat (Z.of_nat (length (_heap self)) + index) := k]>
                 (_heap self)) self)
  /\ (1 <= Z.of_nat (length (_heap self)) + index ->
      key (_heap self)
          (parent (_children self) (Z.of_nat (length (_heap self)) + index)) < k ->
      ~ heap_ok (snd (increase_key index k self))).
Proof.
  destruct self as [d l n]. unfold consistent. simpl.
  intros [-> Hd] Hindex Hlt.
  assert (Hwrap : wrap (Z.of_nat (length l)) index = Z.of_nat (length l) + index)
    by (unfold wrap; rewrite decide_False by lia; done).
  assert (Hrun : increase_key index k (mkDAryHeap d l (Z.of_nat (length l)))
                 = (Return tt,
                    set_heap (<[Z.to_nat (Z.of_nat (length l) + index) := k]> l)
                             (mkDAryHeap d l (Z.of_nat (length l))))).
  { unfold increase_key, bind, get. heap_simpl.
    unfold on_heap at 1, list_get. heap_simpl.
    rewrite getitem_wrap by lia. rewrite Hwrap.
    rewrite decide_False by lia.
    unfold on_heap at 1, list_set. heap_simpl.
    rewrite setitem_wrap by lia. rewrite Hwrap.
    unfold on_heap, sift_fuel. heap_simpl.
    replace (Z.to_nat index) with 0%nat by lia. simpl sift_up.
    rewrite decide_False by lia. done. }
  split; [exact Hrun|]. rewrite Hrun. unfold heap_ok. heap_simpl.
  intros Hpos Hparent Hok.
  set (p := Z.of_nat (length l) + index) in *.
  apply max_heap_property_ordered in Hok; [|lia|rewrite length_insert; lia].
  specialize (Hok p ltac:(lia)).
  pose proof (parent_nonneg d ltac:(lia) p ltac:(lia)) as Hq0.
  pose proof (parent_lt d ltac:(lia) p ltac:(lia)) as Hq1.
  specialize (Hok Hq0).
  rewrite !key_insert in Hok by lia.
  rewrite decide_True in Hok by done. rewrite decide_False in Hok by lia. lia.
Qed.

Lemma increase_key_negative_index_witness :
  consistent (mkDAryHeap 2 [5; 3; 4] 3)
  /\ - Z.of_nat (length (_heap (mkDAryHeap 2 [5; 3; 4] 3))) <= -1 < 0
  /\ key (_heap (mkDAryHeap 2 [5; 3; 4] 3))
         (Z.of_nat (length (_heap (mkDAryHeap 2 [5; 3; 4] 3))) + -1) < 10
  /\ increase_key (-1) 10 (mkDAryHeap 2 [5; 3; 4] 3)
     = (Return tt, mkDAryHeap 2 [5; 3; 10] 3)
  /\ ~ heap_ok (snd (increase_key (-1) 10 (mkDAryHeap 2 [5; 3; 4] 3))).
Proof.
  assert (Hc : consistent (mkDAryHeap 2 [5; 3; 4] 3))
    by (split; [reflexivity|simpl; lia]).
  assert (Hi : - Z.of_nat (length (_heap (mkDAryHeap 2 [5; 3; 4] 3))) <= -1 < 0)
    by (simpl; lia).
  assert (Hlt : key (_heap (mkDAryHeap 2 [5; 3; 4] 3))
                    (Z.of_nat (length (_heap (mkDAryHeap 2 [5; 3; 4] 3))) + -1)
                < 10) by (vm_compute; reflexivity).
  split; [exact Hc|]. split; [exact Hi|]. split; [exact Hlt|].
  destruct (increase_key_negative_index (-1) 10 (mkDAryHeap 2 [5; 3; 4] 3)
              Hc Hi Hlt) as [Hrun Hbroken].
  split; [exact Hrun|].
  apply Hbroken; [simpl; lia|vm_compute; reflexivity].
Defined.

(** ** [heap_sort] and the heap object *)

(** X16. [heap_sort] leaves the sorted list in the heap object, with the
    size set to its length: the object then holds an ascending list, and
    the next [extract_max] returns the smallest key of the list, not the
    largest. *)
Theorem heap_sort_then_extract_max (array : list Z) (self : DAryHeap) :
  2 <= _children self -> array <> [] ->
  exists s1 v s2,
    heap_sort array self = (Return tt, s1)
    /\ extract_max s1 = (Return v, s2)
    /\ v ∈ array
    /\ forall x, x ∈ array -> v <= x.
Proof.
  intros Hd Hne.
  destruct (heap_sort_run array self Hd) as (l' & Hrun & Hperm & Hsorted).
  set (s1 := {| _children := _children self; _heap := l';
                _heap_size := Z.of_nat (length array) |}) in *.
  assert (Hlen : length l' = length array) by (by rewrite Hperm).
  assert (Hpos : (0 < length array)%nat) by (destruct array; [done|simpl; lia]).
  assert (Hc : consistent s1) by (split; [simpl; lia|done]).
  destruct (extract_max_run s1 Hc ltac:(simpl; lia)) as (l2 & Hrun2 & _).
  eexists s1, _, _. split; [exact Hrun|]. split; [exact Hrun2|].
  simpl. destruct l' as [|y t]; [simpl in Hlen; lia|].
  change (key (y :: t) 0) with y.
  split; [rewrite <- Hperm; by left|].
  intros x Hx. rewrite <- Hperm in Hx.
  apply Sorted_StronglySorted in Hsorted; [|intros ? ? ?; lia].
  apply StronglySorted_inv in Hsorted as [_ Hall].
  apply elem_of_cons in Hx as [->|Hx]; [lia|].
  rewrite Forall_forall in Hall. by apply Hall.
Qed.

Lemma heap_sort_then_extract_max_witness :
  2 <= _children (mkDAryHeap 3 [] 0) /\ [4; 1; 7; 3; 9; 2] <> []
  /\ exists s1 v s2,
       heap_sort [4; 1; 7; 3; 9; 2] (mkDAryHeap 3 [] 0) = (Return tt, s1)
       /\ extract_max s1 = (Return v, s2)
       /\ v ∈ [4; 1; 7; 3; 9; 2]
       /\ forall x, x ∈ [4; 1; 7; 3; 9; 2] -> v <= x.
Proof.
  split; [simpl; lia|]. split; [discriminate|].
  apply (heap_sort_then_extract_max [4; 1; 7; 3; 9; 2] (mkDAryHeap 3 [] 0));
    [simpl; lia|discriminate].
Defined.

(** X17. What [heap_sort] makes of a list depends neither on the
    branching factor nor on what the heap object held before: any two
    heap objects with [d >= 2] return with the same list. *)
Theorem heap_sort_same_result (array : list Z) (s1 s2 : DAryHeap) :
  2 <= _children s1 -> 2 <= _children s2 ->
  fst (heap_sort array s1) = Return tt
  /\ fst (heap_sort array s2) = Return tt
  /\ _heap (snd (heap_sort array s1)) = _heap (snd (heap_sort array s2)).
Proof.
  intros Hd1 Hd2.
  destruct (heap_sort_run array s1 Hd1) as (l1 & -> & Hperm1 & Hsorted1).
  destruct (heap_sort_run array s2 Hd2) as (l2 & -> & Hperm2 & Hsorted2).
  simpl. split; [done|]. split; [done|].
  apply (Sorted_unique Z.le); [done|done|by rewrite Hperm1, Hperm2].
Qed.

Lemma heap_sort_same_result_witness :
  2 <= _children (mkDAryHeap 2 [] 0) /\ 2 <= _children (mkDAryHeap 5 [8; 1] 2)
  /\ fst (heap_sort [4; 1; 7; 3; 9; 2] (mkDAryHeap 2 [] 0)) = Return tt
  /\ fst (heap_sort [4; 1; 7; 3; 9; 2] (mkDAryHeap 5 [8; 1] 2)) = Return tt
  /\ _heap (snd (heap_sort [4; 1; 7; 3; 9; 2] (mkDAryHeap 2 [] 0)))
     = _heap (snd (heap_sort [4; 1; 7; 3; 9; 2] (mkDAryHeap 5 [8; 1] 2))).
Proof.
  split; [simpl; lia|]. split; [simpl; lia|].
  apply (heap_sort_same_result [4; 1; 7; 3; 9; 2]
           (mkDAryHeap 2 [] 0) (mkDAryHeap 5 [8; 1] 2)); simpl; lia.
Defined.

(** ** The size stays the length of the list *)

Lemma sift_up_length (fuel : nat) (d k : Z) :
  forall index l r l',
    sift_up fuel d index k l = (r, l') -> length l' = length l.
Proof.
  induction fuel as [|fuel IH]; intros index l r l'; simpl.
  - by intros [= _ <-].
  - destruct (decide (index > 0)); [|by intros [= _ <-]].
    unfold bind at 1, list_get.
    destruct (getitem l (parent d index)) as [p|]; [|by intros [= _ <-]].
    destruct (decide (k > p)); [|by intros [= _ <-]].
    unfold bind.
    destruct (_swap index (parent d index) l) as [[u|e|] l1] eqn:Hswap;
      apply _swap_length in Hswap; try (intros [= _ <-]; lia).
    intros Hrec. apply IH in Hrec. lia.
Qed.

Lemma increase_key_fields (index k : Z) (self : DAryHeap) r self' :
  increase_key index k self = (r, self') ->
  _heap_size self' = _heap_size self
  /\ _children self' = _children self
  /\ length (_heap self') = length (_heap self).
Proof.
  unfold increase_key, bind, get. unfold on_heap at 1, list_get.
  destruct (getitem (_heap self) index) as [cur|]; [|by intros [= _ <-]].
  rewrite set_heap_id.
  destruct (decide (k <= cur)); [by intros [= _ <-]|].
  unfold on_heap at 1, list_set, setitem.
  destruct (norm_index (length (_heap self)) index) as [i|];
    [|by intros [= _ <-]].
  unfold on_heap. heap_simpl.
  destruct (sift_up _ _ _ _ _) as [r1 l1] eqn:Hup.
  apply sift_up_length in Hup. rewrite length_insert in Hup.
  by intros [= _ <-].
Qed.

(** X18. The methods keep the size equal to the length of the list: from
    a heap where it is (with [d >= 2]), [max_heap_insert],
    [extract_max], [delete_key], [increase_key] and [heap_sort] end,
    whether they return or raise and whatever their arguments, in a heap
    where it is. *)
Theorem consistent_kept (self : DAryHeap) :
  consistent self ->
  (forall k, consistent (snd (max_heap_insert k self)))
  /\ consistent (snd (extract_max self))
  /\ (forall pos, consistent (snd (delete_key pos self)))
  /\ (forall index k, consistent (snd (increase_key index k self)))
  /\ (forall array, consistent (snd (heap_sort array self))).
Proof.
  intros Hcons. pose proof Hcons as [Hsize Hd].
  split; [|split; [|split; [|split]]].
  - intros k.
    destruct (max_heap_insert_run k self Hcons) as (l' & -> & _ & Hlen & _).
    split; [simpl; lia|done].
  - destruct (decide (1 <= _heap_size self)) as [Hpos|Hzero].
    + destruct (extract_max_run self Hcons Hpos) as (l' & -> & _ & Hlen & _).
      split; [simpl; lia|done].
    + unfold extract_max, bind, get. by rewrite decide_True by lia.
  - intros pos.
    destruct (decide (0 <= pos < _heap_size self)) as [Hpos|Hout].
    + destruct (delete_key_run pos self Hcons Hpos) as (l' & -> & _ & Hlen & _).
      split; [simpl; lia|done].
    + unfold delete_key, bind, get. by rewrite decide_True by lia.
  - intros index k.
    destruct (increase_key index k self) as [r self'] eqn:Hrun.
    apply increase_key_fields in Hrun as (Hs & Hc & Hl).
    split; simpl; [lia|by rewrite Hc].
  - intros array.
    destruct (heap_sort_run array self Hd) as (l' & -> & Hperm & _).
    split; [simpl; by rewrite Hperm|done].
Qed.

Lemma consistent_kept_witness :
  consistent (mkDAryHeap 3 [9; 4; 7; 3; 1; 2] 6)
  /\ consistent (snd (max_heap_insert 5 (mkDAryHeap 3 [9; 4; 7; 3; 1; 2] 6)))
  /\ consistent (snd (extract_max (mkDAryHeap 3 [9; 4; 7; 3; 1; 2] 6)))
  /\ consistent (snd (delete_key 9 (mkDAryHeap 3 [9; 4; 7; 3; 1; 2] 6)))
  /\ consistent (snd (increase_key (-2) 8 (mkDAryHeap 3 [9; 4; 7; 3; 1; 2] 6)))
  /\ consistent (snd (heap_sort [2; 1] (mkDAryHeap 3 [9; 4; 7; 3; 1; 2] 6))).
Proof.
  assert (Hc : consistent (mkDAryHeap 3 [9; 4; 7; 3; 1; 2] 6))
    by (split; [reflexivity|simpl; lia]).
  split; [exact Hc|].
  destruct (consistent_kept (mkDAryHeap 3 [9; 4; 7; 3; 1; 2] 6) Hc)
    as (H1 & H2 & H3 & H4 & H5).
  split; [exact (H1 5)|]. split; [exact H2|]. split; [exact (H3 9)|].
  split; [exact (H4 (-2) 8)|exact (H5 [2; 1])].
Defined.

(** ** [max_heap_insert] when it fails *)

Lemma sift_up_perm_any (fuel : nat) (d k : Z) :
  forall index l r l', sift_up fuel d index k l = (r, l') -> l' ≡ₚ l.
Proof.
  induction fuel as [|fuel IH]; intros index l r l'; simpl.
  - by intros [= _ <-].
  - destruct (decide (index > 0)); [|by intros [= _ <-]].
    unfold bind at 1, list_get.
    destruct (getitem l (parent d index)) as [p|]; [|by intros [= _ <-]].
    destruct (decide (k > p)); [|by intros [= _ <-]].
    unfold bind.
    destruct (_swap index (parent d index) l) as [[u|e|] l1] eqn:Hswap;
      apply swap_perm_any in Hswap; try (by intros [= _ <-]).
    intros Hrec. apply IH in Hrec. by rewrite Hrec.
Qed.

(** X19. [max_heap_insert(key)] grows the heap before it sifts: however
    the call ends, also when the sift-up raises [IndexError] because the
    tracked size was not the length of the list, the size has grown by
    one and the list holds the old keys and [key]; it never raises any
    other exception. *)
Theorem max_heap_insert_always_appends (k : Z) (self : DAryHeap) :
  _heap_size (snd (max_heap_insert k self)) = _heap_size self + 1
  /\ _heap (snd (max_heap_insert k self)) ≡ₚ _heap self ++ [k]
  /\ _children (snd (max_heap_insert k self)) = _children self
  /\ forall e, fst (max_heap_insert k self) = Raise e -> e = IndexError.
Proof.
  unfold max_heap_insert, bind, modify, get, on_heap, list_append. heap_simpl.
  destruct (sift_up _ _ _ _ _) as [r l1] eqn:Hup. simpl.
  split; [done|]. split; [by apply sift_up_perm_any in Hup|]. split; [done|].
  intros e ->. revert Hup. generalize (_heap self ++ [k]).
  generalize (_heap_size self + 1 - 1) at 2.
  generalize (sift_fuel (_heap_size self + 1 - 1)).
  intros fuel. induction fuel as [|fuel IH]; intros index l; simpl; [done|].
  destruct (decide (index > 0)); [|done].
  unfold bind at 1, list_get.
  destruct (getitem l (parent (_children self) index)) as [p|];
    [|by intros [= <- _]].
  destruct (decide (k > p)); [|done]. unfold bind.
  destruct (_swap index (parent (_children self) index) l)
    as [[u|e1|] l2] eqn:Hswap; [apply IH| |done].
  intros [= <- _].
  destruct (decide (- Z.of_nat (length l) <= index < Z.of_nat (length l)
                    /\ - Z.of_nat (length l) <= parent (_children self) index
                       < Z.of_nat (length l))) as [[Ha Hb]|Hout].
  - by rewrite swap_run_wrap in Hswap.
  - rewrite swap_raise in Hswap by done. by injection Hswap as <- _.
Qed.

Example run_insert_before_build :
  max_heap_insert 5 (mkDAryHeap 2 [] 3)
  = (Raise IndexError, mkDAryHeap 2 [5] 4).
Proof. vm_compute. reflexivity. Qed.
